(** * Forward-additive image alignment (imagealign/forward_additive.h)

    A shallow embedding of [AlignForwardAdditive<W>::alignImpl] and
    [applyStep], followed by the properties of a single alignment step.

    The routine is generic in the warp type [W] and in its scalar type; the
    embedding keeps that genericity.  The arithmetic of [float] and of
    [W::Traits::ScalarType] is a parameter (an [Arith] instance), so every
    theorem that assumes no law holds for whatever rounding the machine
    performs; the few results that need algebraic laws state them as section
    hypotheses.  The collaborators declared in the other headers
    ([align_base.h], [warp.h], [sampling.h], [gradient.h]) and OpenCV's
    [Matx::inv] are parameters as well. *)

From Stdlib Require Import ZArith List Bool Lia Ring OrderedRing ZMicromega.
From Stdlib Require Import Permutation.
From Stdlib Require Floats Uint63.
Import ListNotations.
Open Scope Z_scope.

(** ** Scalars, images and small matrices *)

(** The operations the routine performs on [float] values (template and target
    intensities, the residual) and on [ScalarType] values (everything stored in
    a [Matx]), with the two conversions [ScalarType(int)] and
    [ScalarType(float)]. *)
Class Arith (Float Scalar : Type) := {
  fsub : Float -> Float -> Float;
  fmul : Float -> Float -> Float;
  szero : Scalar;
  sadd : Scalar -> Scalar -> Scalar;
  smul : Scalar -> Scalar -> Scalar;
  scalar_of_int : Z -> Scalar;
  scalar_of_float : Float -> Scalar
}.

(** [cv::Mat] of [float]: its two extents and the pixel read
    [m.ptr<float>(y)[x]]. *)
Record Mat (Float : Type) := {
  rows : Z;
  cols : Z;
  ptr : Z -> Z -> Float
}.
Arguments rows {Float} _.
Arguments cols {Float} _.
Arguments ptr {Float} _ _ _.

(** [cv::Size], as returned by [cv::Mat::size()]. *)
Record Size := { width : Z; height : Z }.

Definition size {Float : Type} (m : Mat Float) : Size :=
  {| width := cols m; height := rows m |}.

(** [PointType]: a point of the continuous image plane, [x] first. *)
Record PointType (Scalar : Type) := { px : Scalar; py : Scalar }.
Arguments px {Scalar} _.
Arguments py {Scalar} _.

(** [cv::Matx<ScalarType, m, n>], read through [operator()(i, j)].  The extents
    are static in the source; here they are supplied to the operations that
    iterate over them. *)
Definition Matx (Scalar : Type) : Type := nat -> nat -> Scalar.

(** [for (int i = lo; i < hi; ++i)]: the values the loop variable takes. *)
Definition int_range (lo hi : Z) : list Z :=
  map (fun k => lo + Z.of_nat k) (seq 0 (Z.to_nat (hi - lo))).

Section MatxOps.
Context {Float Scalar : Type} {AR : Arith Float Scalar}.

(** [s = 0; for (k = 0; k < l; ++k) s += f(k) * g(k)] *)
Definition dot (l : nat) (f g : nat -> Scalar) : Scalar :=
  fold_left (fun s k => sadd s (smul (f k) (g k))) (seq 0 l) szero.

(** [a * c] for an [m x l] and an [l x n] matrix. *)
Definition matmul (l : nat) (a c : Matx Scalar) : Matx Scalar :=
  fun i j => dot l (a i) (fun k => c k j).

(** [a.t()] *)
Definition transpose (a : Matx Scalar) : Matx Scalar := fun i j => a j i.

(** [a + c], the right-hand side of [a += c]. *)
Definition madd (a c : Matx Scalar) : Matx Scalar :=
  fun i j => sadd (a i j) (c i j).

(** [a * alpha] for a [float] factor: every entry is multiplied by the
    factor converted to the entry type. *)
Definition mscale (a : Matx Scalar) (alpha : Float) : Matx Scalar :=
  fun i j => smul (a i j) (scalar_of_float alpha).

(** [W::Traits::zeroHessian(n)] and [W::Traits::zeroParam(n)]. *)
Definition zeroHessian (n : nat) : Matx Scalar := fun _ _ => szero.
Definition zeroParam (n : nat) : Matx Scalar := fun _ _ => szero.
End MatxOps.

(** ** The collaborators *)

(** The warp type [W]: parameter count, [operator()], Jacobian and the
    additive update. *)
Class Warp (Scalar W : Type) := {
  numParameters : W -> nat;
  warp_at : W -> PointType Scalar -> PointType Scalar;
  jacobian : W -> PointType Scalar -> Matx Scalar;
  updateForwardAdditive : W -> Matx Scalar -> W
}.

(** What the routine calls outside its own file: the bounds test of the base
    class, the bilinear sampler, the gradient estimator and the matrix
    inverse (given the extent of the square matrix). *)
Class Kernels (Float Scalar : Type) := {
  isInImage : PointType Scalar -> Size -> Z -> bool;
  sample : Mat Float -> PointType Scalar -> Float;
  gradient : Mat Float -> PointType Scalar -> Matx Scalar;
  inv : nat -> Matx Scalar -> Matx Scalar
}.

(** The base-class object [*this]: whatever state it holds, the routine reads
    it only through [templateImage()] and [targetImage()]. *)
Class AlignBase (Float A : Type) := {
  templateImage : A -> Mat Float;
  targetImage : A -> Mat Float
}.

(** [SingleStepResult<W>] *)
Record SingleStepResult (Scalar : Type) := {
  delta : Matx Scalar;
  sumErrors : Scalar;
  numConstraints : Z
}.
Arguments delta {Scalar} _.
Arguments sumErrors {Scalar} _.
Arguments numConstraints {Scalar} _.

(** The four local accumulators of [alignImpl].  The count is an [int] in the
    source; it never exceeds the number of template pixels and is kept in
    [Z]. *)
Record Accum (Scalar : Type) := {
  acc_hessian : Matx Scalar;
  acc_b : Matx Scalar;
  acc_sumErrors : Scalar;
  acc_sumConstraints : Z
}.
Arguments acc_hessian {Scalar} _.
Arguments acc_b {Scalar} _.
Arguments acc_sumErrors {Scalar} _.
Arguments acc_sumConstraints {Scalar} _.

(** ** The algorithm *)

Section ForwardAdditive.
Context {Float Scalar W A : Type}.
Context {AR : Arith Float Scalar} {WP : Warp Scalar W}.
Context {KR : Kernels Float Scalar} {AB : AlignBase Float A}.

(** [prepareImpl]: nothing is precomputed. *)
Definition prepareImpl (this : A) (w : W) : A := this.

(** The body of the inner loop at row [y] and column [x]. *)
Definition pixel (this : A) (w : W) (acc : Accum Scalar) (y x : Z)
  : Accum Scalar :=
  let tpl := templateImage this in
  let target := targetImage this in
  let templateIntensity := ptr tpl y x in
  let ptpl := {| px := scalar_of_int x; py := scalar_of_int y |} in
  let ptgt := warp_at w ptpl in
  if negb (isInImage ptgt (size target) 1) then acc
  else
    let targetIntensity := sample target ptgt in
    let err := fsub templateIntensity targetIntensity in
    let sumErrors' :=
      sadd (acc_sumErrors acc) (scalar_of_float (fmul err err)) in
    let sumConstraints' := acc_sumConstraints acc + 1 in
    let grad := gradient target ptgt in
    let jac := jacobian w ptpl in
    let sd := matmul 2 grad jac in
    let b' := madd (acc_b acc) (mscale (transpose sd) err) in
    let hessian' := madd (acc_hessian acc) (matmul 1 (transpose sd) sd) in
    {| acc_hessian := hessian'; acc_b := b';
       acc_sumErrors := sumErrors'; acc_sumConstraints := sumConstraints' |}.

(** [for (int x = 1; x < tpl.cols - 1; ++x)] *)
Definition scan_row (this : A) (w : W) (acc : Accum Scalar) (y : Z)
  : Accum Scalar :=
  fold_left (fun a x => pixel this w a y x)
            (int_range 1 (cols (templateImage this) - 1)) acc.

(** [for (int y = 1; y < tpl.rows - 1; ++y)] *)
Definition scan (this : A) (w : W) (acc : Accum Scalar) : Accum Scalar :=
  fold_left (scan_row this w)
            (int_range 1 (rows (templateImage this) - 1)) acc.

(** The accumulators as declared before the loops. *)
Definition init (w : W) : Accum Scalar :=
  {| acc_hessian := zeroHessian (numParameters w);
     acc_b := zeroParam (numParameters w);
     acc_sumErrors := szero;
     acc_sumConstraints := 0 |}.

(** The accumulators when the loops are left. *)
Definition accumulate (this : A) (w : W) : Accum Scalar :=
  scan this w (init w).

Definition alignImpl (this : A) (w : W) : SingleStepResult Scalar :=
  let acc := accumulate this w in
  let delta :=
    matmul (numParameters w)
           (inv (numParameters w) (acc_hessian acc)) (acc_b acc) in
  {| delta := delta;
     sumErrors := acc_sumErrors acc;
     numConstraints := acc_sumConstraints acc |}.

Definition applyStep (w : W) (s : SingleStepResult Scalar) : W :=
  updateForwardAdditive w (delta s).
End ForwardAdditive.

(** ** Calls, outcomes and the iteration driver *)

(** Modelled from the spec: the error kinds of its error-handling section.
    The source declares none of them and raises no error. *)
Inductive AlignError : Set :=
  | AlignmentDegenerateError
  | AlignmentNoDataError
  | InvalidInputDimensions.

(** How a call ends: with a value, or with an error raised to the caller. *)
Inductive Outcome (T : Type) : Type :=
  | Returned (r : T)
  | Failed (e : AlignError).
Arguments Returned {T} r.
Arguments Failed {T} e.

Section Calls.
Context {Float Scalar W A : Type}.
Context {AR : Arith Float Scalar} {WP : Warp Scalar W}.
Context {KR : Kernels Float Scalar} {AB : AlignBase Float A}.

(** A call of [alignImpl] seen from its caller.  The body has one exit, the
    [return step;] that follows the solve; it holds no [throw] and tests
    neither the constraint count nor the Hessian. *)
Definition alignImpl_call (this : A) (w : W)
  : Outcome (SingleStepResult Scalar) :=
  Returned (alignImpl this w).

(** Modelled from the spec: the [step] operation of the base class
    ([align_base.h] is not part of the sources).  It delegates to the
    variant's numeric core, then calls [applyStep] to update the warp; no
    other state changes.  The result is the updated warp and the
    diagnostics. *)
Definition step (this : A) (w : W) : W * SingleStepResult Scalar :=
  let r := alignImpl this w in (applyStep w r, r).
End Calls.

(** ** Per-pixel quantities, named for the statements below *)

Section Views.
Context {Float Scalar W A : Type}.
Context {AR : Arith Float Scalar} {WP : Warp Scalar W}.
Context {KR : Kernels Float Scalar} {AB : AlignBase Float A}.

(** The template point of the pixel at row [y], column [x]. *)
Definition template_point (p : Z * Z) : PointType Scalar :=
  {| px := scalar_of_int (snd p); py := scalar_of_int (fst p) |}.

(** The pixels the two loops visit, as (row, column), in visiting order. *)
Definition interior (tpl : Mat Float) : list (Z * Z) :=
  flat_map (fun y => map (pair y) (int_range 1 (cols tpl - 1)))
           (int_range 1 (rows tpl - 1)).

(** The bounds test made for a visited pixel. *)
Definition contributes (this : A) (w : W) (p : Z * Z) : bool :=
  isInImage (warp_at w (template_point p)) (size (targetImage this)) 1.

(** The visited pixels that pass the bounds test. *)
Definition contributing (this : A) (w : W) : list (Z * Z) :=
  filter (contributes this w) (interior (templateImage this)).

(** Template intensity minus sampled target intensity. *)
Definition residual (this : A) (w : W) (p : Z * Z) : Float :=
  fsub (ptr (templateImage this) (fst p) (snd p))
       (sample (targetImage this) (warp_at w (template_point p))).

(** Target gradient at the warped point times warp Jacobian at the template
    point. *)
Definition sdi (this : A) (w : W) (p : Z * Z) : Matx Scalar :=
  matmul 2 (gradient (targetImage this) (warp_at w (template_point p)))
           (jacobian w (template_point p)).

(** What one contributing pixel adds to the four accumulators. *)
Definition contribution (this : A) (w : W) (acc : Accum Scalar) (p : Z * Z)
  : Accum Scalar :=
  {| acc_hessian :=
       madd (acc_hessian acc)
            (matmul 1 (transpose (sdi this w p)) (sdi this w p));
     acc_b :=
       madd (acc_b acc) (mscale (transpose (sdi this w p)) (residual this w p));
     acc_sumErrors :=
       sadd (acc_sumErrors acc)
            (scalar_of_float (fmul (residual this w p) (residual this w p)));
     acc_sumConstraints := acc_sumConstraints acc + 1 |}.

(** [H = sum of sdi^T * sdi] and [b = sum of sdi^T * err] over a list of
    pixels, added in list order onto the zero matrices. *)
Definition hessian_sum (this : A) (w : W) (l : list (Z * Z)) : Matx Scalar :=
  fold_left
    (fun h p => madd h (matmul 1 (transpose (sdi this w p)) (sdi this w p)))
    l (zeroHessian (numParameters w)).

Definition b_sum (this : A) (w : W) (l : list (Z * Z)) : Matx Scalar :=
  fold_left
    (fun v p => madd v (mscale (transpose (sdi this w p)) (residual this w p)))
    l (zeroParam (numParameters w)).

Definition error_sum (this : A) (w : W) (l : list (Z * Z)) : Scalar :=
  fold_left
    (fun s p =>
       sadd s (scalar_of_float
                 (fmul (residual this w p) (residual this w p))))
    l szero.

(** The quadratic form [x^T * H * x] of an [n x n] matrix. *)
Definition quad (n : nat) (H : Matx Scalar) (x : nat -> Scalar) : Scalar :=
  dot n x (fun i => dot n (H i) x).

(** The contracts of the collaborators on the pixel grid of an image: the
    warp maps every point to itself; the sampler returns the stored
    intensity at a grid point off the border; the bounds test with margin
    one accepts such a point. *)
Definition identity_warp (w : W) : Prop := forall p, warp_at w p = p.

Definition samples_grid (img : Mat Float) : Prop :=
  forall p, In p (interior img) ->
            sample img (template_point p) = ptr img (fst p) (snd p).

Definition accepts_grid (img : Mat Float) : Prop :=
  forall p, In p (interior img) ->
            isInImage (template_point p) (size img) 1 = true.

(** The laws of exact arithmetic around zero that the self-alignment result
    rests on, for a [float] zero [fzero]. *)
Definition zero_laws (fzero : Float) : Prop :=
  (forall a, fsub a a = fzero) /\
  fmul fzero fzero = fzero /\
  scalar_of_float fzero = szero /\
  sadd szero szero = szero /\
  (forall s, smul s szero = szero).

(** Two images of the same extents that hold the same intensities. *)
Definition same_pixels (t1 t2 : Mat Float) : Prop :=
  rows t1 = rows t2 /\ cols t1 = cols t2 /\
  forall y x, 0 <= y < rows t1 -> 0 <= x < cols t1 ->
              ptr t1 y x = ptr t2 y x.

(** Two templates of the same extents that agree on every pixel off the
    one-pixel border. *)
Definition same_interior (t1 t2 : Mat Float) : Prop :=
  rows t1 = rows t2 /\ cols t1 = cols t2 /\
  forall y x, 1 <= y <= rows t1 - 2 -> 1 <= x <= cols t1 - 2 ->
              ptr t1 y x = ptr t2 y x.
(** Two warps that cannot be told apart on the template's visited points:
    same parameter count, same image and same Jacobian at each of them. *)
Definition same_on_grid (tpl : Mat Float) (w1 w2 : W) : Prop :=
  numParameters w1 = numParameters w2 /\
  forall p, In p (interior tpl) ->
            warp_at w1 (template_point p) = warp_at w2 (template_point p) /\
            jacobian w1 (template_point p) = jacobian w2 (template_point p).

(** The additive update by a zero vector leaves the warp as it is. *)
Definition zero_update_is_identity (w : W) : Prop :=
  forall d : Matx Scalar,
    (forall i j, d i j = szero) -> updateForwardAdditive w d = w.




(** [K] is a right inverse of the [n x n] matrix [H], for a scalar unit
    [sone]. *)
Definition is_right_inverse
    (sone : Scalar) (n : nat) (H K : Matx Scalar) : Prop :=
  forall i k, (i < n)%nat -> (k < n)%nat ->
              matmul n H K i k = if Nat.eqb i k then sone else szero.
End Views.

(** ** A concrete instance: integer intensities and a translation warp

    A small world in which every operation can be evaluated: intensities and
    scalars are integers, the warp is a translation by whole pixels
    ([P = 2]), sampling reads the pixel under the point, the gradient is the
    central difference and the inverse is exact on unimodular [2 x 2]
    matrices and zero elsewhere. *)
Module Demo.

#[export] Instance arith : Arith Z Z := {|
  fsub := Z.sub;
  fmul := Z.mul;
  szero := 0;
  sadd := Z.add;
  smul := Z.mul;
  scalar_of_int := fun z => z;
  scalar_of_float := fun z => z
|}.

(** A translation, held as its two parameters [(tx, ty)]. *)
Definition Translation : Type := Z * Z.

Definition identity2 : Matx Z :=
  fun i j => if Nat.eqb i j then 1 else 0.

#[export] Instance translation : Warp Z Translation := {|
  numParameters := fun _ => 2%nat;
  warp_at := fun w p => {| px := px p + fst w; py := py p + snd w |};
  jacobian := fun _ _ => identity2;
  updateForwardAdditive :=
    fun w d => (fst w + d 0%nat 0%nat, snd w + d 1%nat 0%nat)
|}.

Definition in_image (p : PointType Z) (s : Size) (border : Z) : bool :=
  (border <=? px p) && (px p <? width s - border) &&
  (border <=? py p) && (py p <? height s - border).

Definition central_difference (m : Mat Z) (p : PointType Z) : Matx Z :=
  fun _ k =>
    match k with
    | O => ptr m (py p) (px p + 1) - ptr m (py p) (px p - 1)
    | S O => ptr m (py p + 1) (px p) - ptr m (py p - 1) (px p)
    | _ => 0
    end.

Definition unimodular_inverse (n : nat) (H : Matx Z) : Matx Z :=
  let det := H 0%nat 0%nat * H 1%nat 1%nat - H 0%nat 1%nat * H 1%nat 0%nat in
  if (Nat.eqb n 2 && (Z.abs det =? 1))%bool then
    fun i j =>
      match i, j with
      | O, O => det * H 1%nat 1%nat
      | O, S O => - det * H 0%nat 1%nat
      | S O, O => - det * H 1%nat 0%nat
      | S O, S O => det * H 0%nat 0%nat
      | _, _ => 0
      end
  else fun _ _ => 0.

#[export] Instance kernels : Kernels Z Z := {|
  isInImage := in_image;
  sample := fun m p => ptr m (py p) (px p);
  gradient := central_difference;
  inv := unimodular_inverse
|}.

(** An aligner object with a field the routine never reads. *)
Record Aligner := {
  tpl_image : Mat Z;
  target_image : Mat Z;
  level : nat
}.

#[export] Instance aligner : AlignBase Z Aligner := {|
  templateImage := tpl_image;
  targetImage := target_image
|}.

(** A 4 x 5 image, a copy of it whose border pixels are changed, and a
    single-row image. *)
Definition ramp : Mat Z :=
  {| rows := 4; cols := 5; ptr := fun y x => x * x + 3 * y |}.

Definition ramp_framed : Mat Z :=
  {| rows := 4; cols := 5;
     ptr := fun y x =>
              if ((1 <=? y) && (y <=? 2) && (1 <=? x) && (x <=? 3))%bool
              then x * x + 3 * y else 99 |}.

Definition strip : Mat Z :=
  {| rows := 1; cols := 5; ptr := fun _ x => x |}.

(** The same pattern shifted one column to the left on a wider grid. *)
Definition ramp_shifted : Mat Z :=
  {| rows := 4; cols := 6; ptr := fun y x => (x + 1) * (x + 1) + 3 * y |}.

Definition self_aligner : Aligner :=
  {| tpl_image := ramp; target_image := ramp; level := 0 |}.

Definition self_aligner_later : Aligner :=
  {| tpl_image := ramp; target_image := ramp; level := 3 |}.

Definition framed_aligner : Aligner :=
  {| tpl_image := ramp_framed; target_image := ramp; level := 0 |}.

Definition strip_aligner : Aligner :=
  {| tpl_image := strip; target_image := strip; level := 0 |}.

Definition shifted_aligner : Aligner :=
  {| tpl_image := ramp; target_image := ramp_shifted; level := 0 |}.

Definition no_shift : Translation := (0, 0).
Definition far_away : Translation := (100, 100).
Definition one_right : Translation := (1, 0).

(** A template that agrees with [ramp] on the four pixels contributing under
    [one_right] and nowhere else. *)
Definition ramp_masked : Mat Z :=
  {| rows := 4; cols := 5;
     ptr := fun y x =>
              if ((1 <=? y) && (y <=? 2) && (1 <=? x) && (x <=? 2))%bool
              then x * x + 3 * y else 77 |}.

Definition masked_aligner : Aligner :=
  {| tpl_image := ramp_masked; target_image := ramp; level := 0 |}.

(** A 3 x 4 target whose two interior pixels have gradients [(1,0)] and
    [(0,1)], and a template to align with it. *)
Definition spots : Mat Z :=
  {| rows := 3; cols := 4;
     ptr := fun y x =>
              if (((y =? 1) || (y =? 2)) && (x =? 2))%bool then 1 else 0 |}.

Definition steps : Mat Z :=
  {| rows := 3; cols := 4; ptr := fun y x => 2 * x + y |}.

Definition unit_aligner : Aligner :=
  {| tpl_image := steps; target_image := spots; level := 0 |}.

Definition one_left : Translation := (-1, 0).

(** A translation that carries a label none of its operations looks at. *)
Record Labelled := { shift : Translation; label : nat }.

Definition labelled : Warp Z Labelled := {|
  numParameters := fun _ => 2%nat;
  warp_at := fun w p => warp_at (shift w) p;
  jacobian := fun w p => jacobian (shift w) p;
  updateForwardAdditive :=
    fun w d => {| shift := updateForwardAdditive (shift w) d;
                  label := label w |}
|}.

Definition first_guess : Labelled := {| shift := (1, 0); label := 1 |}.
Definition second_guess : Labelled := {| shift := (1, 0); label := 2 |}.

(** The solution of the normal equations of [unit_aligner]. *)
Definition three_four : Matx Z :=
  fun i _ => match i with O => 3 | _ => 4 end.
End Demo.

(** ** A second concrete instance: binary64 arithmetic

    Intensities and scalars are IEEE 754 double-precision numbers with the
    operations of the machine.  The warp is a translation, the sampler reads
    the pixel under a grid point, the gradient is half the central
    difference, and the inverse is the closed form for [2 x 2] matrices,
    zero for a zero determinant. *)
Module Ieee.
Import PrimFloat.

Definition float_of_int (z : Z) : float :=
  if z <? 0 then PrimFloat.opp (PrimFloat.of_uint63 (Uint63.of_Z (- z)))
  else PrimFloat.of_uint63 (Uint63.of_Z z).

#[export] Instance binary64 : Arith float float := {|
  fsub := PrimFloat.sub;
  fmul := PrimFloat.mul;
  szero := PrimFloat.zero;
  sadd := PrimFloat.add;
  smul := PrimFloat.mul;
  scalar_of_int := float_of_int;
  scalar_of_float := fun f => f
|}.

(** A translation, held as its two parameters. *)
Definition Shift : Type := (float * float)%type.

Definition unit2 : Matx float :=
  fun i j => if Nat.eqb i j then PrimFloat.one else PrimFloat.zero.

#[export] Instance shift_warp : Warp float Shift := {|
  numParameters := fun _ => 2%nat;
  warp_at := fun w p => {| px := PrimFloat.add (px p) (fst w);
                           py := PrimFloat.add (py p) (snd w) |};
  jacobian := fun _ _ => unit2;
  updateForwardAdditive :=
    fun w d => (PrimFloat.add (fst w) (d 0%nat 0%nat),
                PrimFloat.add (snd w) (d 1%nat 0%nat))
|}.

Definition inside (p : PointType float) (s : Size) (border : Z) : bool :=
  PrimFloat.leb (float_of_int border) (px p) &&
  PrimFloat.ltb (px p) (float_of_int (width s - border)) &&
  PrimFloat.leb (float_of_int border) (py p) &&
  PrimFloat.ltb (py p) (float_of_int (height s - border)).

(** The row or column a coordinate names, when it names one. *)
Definition grid_index (v : float) (n : Z) : option Z :=
  find (fun k => PrimFloat.eqb (float_of_int k) v) (int_range 0 n).

Definition pixel_at (m : Mat float) (p : PointType float) : float :=
  match grid_index (py p) (rows m), grid_index (px p) (cols m) with
  | Some y, Some x => ptr m y x
  | _, _ => PrimFloat.nan
  end.

Definition half : float :=
  Eval compute in PrimFloat.div PrimFloat.one PrimFloat.two.

Definition half_difference (m : Mat float) (p : PointType float)
  : Matx float :=
  fun _ k =>
    match k with
    | O =>
        PrimFloat.mul
          (PrimFloat.sub
             (pixel_at m {| px := PrimFloat.add (px p) PrimFloat.one;
                            py := py p |})
             (pixel_at m {| px := PrimFloat.sub (px p) PrimFloat.one;
                            py := py p |}))
          half
    | S O =>
        PrimFloat.mul
          (PrimFloat.sub
             (pixel_at m {| px := px p;
                            py := PrimFloat.add (py p) PrimFloat.one |})
             (pixel_at m {| px := px p;
                            py := PrimFloat.sub (py p) PrimFloat.one |}))
          half
    | _ => PrimFloat.zero
    end.

Definition inverse2 (n : nat) (H : Matx float) : Matx float :=
  let d := PrimFloat.sub (PrimFloat.mul (H 0%nat 0%nat) (H 1%nat 1%nat))
                         (PrimFloat.mul (H 0%nat 1%nat) (H 1%nat 0%nat)) in
  if (Nat.eqb n 2 && negb (PrimFloat.eqb d PrimFloat.zero))%bool then
    let r := PrimFloat.div PrimFloat.one d in
    fun i j =>
      match i, j with
      | O, O => PrimFloat.mul (H 1%nat 1%nat) r
      | O, S O => PrimFloat.mul (PrimFloat.opp (H 0%nat 1%nat)) r
      | S O, O => PrimFloat.mul (PrimFloat.opp (H 1%nat 0%nat)) r
      | S O, S O => PrimFloat.mul (H 0%nat 0%nat) r
      | _, _ => PrimFloat.zero
      end
  else fun _ _ => PrimFloat.zero.

#[export] Instance machine_kernels : Kernels float float := {|
  isInImage := inside;
  sample := pixel_at;
  gradient := half_difference;
  inv := inverse2
|}.

(** An aligner object: its two images. *)
Record Pair := { template : Mat float; target : Mat float }.

#[export] Instance pair_aligner : AlignBase float Pair := {|
  templateImage := template;
  targetImage := target
|}.

(** An image given by its rows. *)
Definition image_of (data : list (list float)) : Mat float :=
  {| rows := Z.of_nat (length data);
     cols := Z.of_nat (length (hd [] data));
     ptr := fun y x =>
              nth (Z.to_nat x) (nth (Z.to_nat y) data []) PrimFloat.nan |}.

(** Three 3 x 3 images, each with the single interior pixel (1,1): one whose
    gradient there is [(0.3, 0.7)] as rounded to binary64, one whose centre
    intensity is infinite, and one of finite intensities whose horizontal
    difference overflows. *)
Definition slope : Mat float :=
  image_of [[0; 0; 0];
            [0; 1; 0x1.3333333333333p-1];
            [0; 0x1.6666666666666p+0; 0]]%float.



(** The image aligned with itself, and the translation by nothing. *)
Definition self (m : Mat float) : Pair := {| template := m; target := m |}.

Definition still : Shift := (PrimFloat.zero, PrimFloat.zero).

(** The vector [(7, -3)]. *)
Definition seven_minus_three : nat -> float :=
  fun i => match i with O => 7%float | _ => (-3)%float end.
End Ieee.

(** * Properties *)

(** ** Loops as folds over lists of pixels *)

Lemma In_int_range (lo hi k : Z) : In k (int_range lo hi) <-> lo <= k < hi.
Proof.
  unfold int_range. rewrite in_map_iff. split.
  - intros [n [<- Hn]]. apply in_seq in Hn. lia.
  - intros Hk. exists (Z.to_nat (k - lo)). split; [lia|].
    apply in_seq. lia.
Qed.

Lemma length_int_range (lo hi : Z) :
  length (int_range lo hi) = Z.to_nat (hi - lo).
Proof. unfold int_range. now rewrite length_map, length_seq. Qed.

Lemma fold_left_flat_map {X Y B : Type} (f : B -> Y -> B) (g : X -> list Y) :
  forall (l : list X) (a : B),
    fold_left f (flat_map g l) a
    = fold_left (fun a' x => fold_left f (g x) a') l a.
Proof.
  induction l as [|x l IH]; intros a; simpl; [reflexivity|].
  now rewrite fold_left_app, IH.
Qed.

Lemma fold_left_map {X Y B : Type} (f : B -> Y -> B) (g : X -> Y) :
  forall (l : list X) (a : B),
    fold_left f (map g l) a = fold_left (fun a' x => f a' (g x)) l a.
Proof. induction l as [|x l IH]; intros a; simpl; auto. Qed.

Lemma fold_left_ext_in {X B : Type} (f g : B -> X -> B) :
  forall (l : list X) (a : B),
    (forall a' x, In x l -> f a' x = g a' x) ->
    fold_left f l a = fold_left g l a.
Proof.
  induction l as [|x l IH]; intros a H; simpl; [reflexivity|].
  rewrite H by now left. apply IH. intros; apply H; now right.
Qed.

Lemma fold_left_filter {X B : Type} (c : X -> bool) (u : B -> X -> B) :
  forall (l : list X) (a : B),
    fold_left (fun a' x => if c x then u a' x else a') l a
    = fold_left u (filter c l) a.
Proof.
  induction l as [|x l IH]; intros a; simpl; [reflexivity|].
  destruct (c x); simpl; apply IH.
Qed.

Lemma length_flat_map_const {X Y : Type} (g : X -> list Y) (n : nat) :
  forall l : list X,
    (forall x, length (g x) = n) ->
    length (flat_map g l) = (length l * n)%nat.
Proof.
  intros l H. induction l as [|x l IH]; simpl; [reflexivity|].
  now rewrite length_app, H, IH.
Qed.

Section Structure.
Context {Float Scalar W A : Type}.
Context {AR : Arith Float Scalar} {WP : Warp Scalar W}.
Context {KR : Kernels Float Scalar} {AB : AlignBase Float A}.

Lemma In_interior (tpl : Mat Float) (y x : Z) :
  In (y, x) (interior tpl)
  <-> 1 <= y <= rows tpl - 2 /\ 1 <= x <= cols tpl - 2.
Proof.
  unfold interior. rewrite in_flat_map. split.
  - intros [y' [Hy Hx]]. apply in_map_iff in Hx.
    destruct Hx as [x' [E Hx]]. inversion E; subst.
    apply In_int_range in Hy, Hx. lia.
  - intros [Hy Hx]. exists y. split.
    + apply In_int_range. lia.
    + apply in_map, In_int_range. lia.
Qed.

Lemma length_interior (tpl : Mat Float) :
  Z.of_nat (length (interior tpl))
  = Z.max 0 (rows tpl - 2) * Z.max 0 (cols tpl - 2).
Proof.
  unfold interior.
  rewrite length_flat_map_const
    with (n := Z.to_nat (cols tpl - 1 - 1)).
  - rewrite length_int_range. lia.
  - intros y. now rewrite length_map, length_int_range.
Qed.

(** The loop body either leaves the accumulators alone or adds the pixel's
    contribution, as the bounds test decides. *)
Lemma pixel_cases (this : A) (w : W) (acc : Accum Scalar) (p : Z * Z) :
  pixel this w acc (fst p) (snd p)
  = if contributes this w p then contribution this w acc p else acc.
Proof.
  unfold pixel, contributes, contribution, sdi, residual, template_point.
  destruct (isInImage _ _ _); reflexivity.
Qed.

Lemma scan_interior (this : A) (w : W) (acc : Accum Scalar) :
  scan this w acc
  = fold_left (fun a p => pixel this w a (fst p) (snd p))
              (interior (templateImage this)) acc.
Proof.
  unfold scan, interior. rewrite fold_left_flat_map.
  apply fold_left_ext_in. intros a y _.
  unfold scan_row. now rewrite fold_left_map.
Qed.

Lemma scan_contributing (this : A) (w : W) (acc : Accum Scalar) :
  scan this w acc = fold_left (contribution this w) (contributing this w) acc.
Proof.
  rewrite scan_interior. unfold contributing.
  rewrite <- fold_left_filter.
  apply fold_left_ext_in. intros a p _. apply pixel_cases.
Qed.

(** Each accumulator evolves on its own. *)
Lemma contributions_hessian (this : A) (w : W) :
  forall (l : list (Z * Z)) (acc : Accum Scalar),
    acc_hessian (fold_left (contribution this w) l acc)
    = fold_left
        (fun h p =>
           madd h (matmul 1 (transpose (sdi this w p)) (sdi this w p)))
        l (acc_hessian acc).
Proof. induction l as [|p l IH]; intros acc; simpl; [|rewrite IH]; auto. Qed.

Lemma contributions_b (this : A) (w : W) :
  forall (l : list (Z * Z)) (acc : Accum Scalar),
    acc_b (fold_left (contribution this w) l acc)
    = fold_left
        (fun v p =>
           madd v (mscale (transpose (sdi this w p)) (residual this w p)))
        l (acc_b acc).
Proof. induction l as [|p l IH]; intros acc; simpl; [|rewrite IH]; auto. Qed.

Lemma contributions_sumErrors (this : A) (w : W) :
  forall (l : list (Z * Z)) (acc : Accum Scalar),
    acc_sumErrors (fold_left (contribution this w) l acc)
    = fold_left
        (fun s p =>
           sadd s (scalar_of_float
                     (fmul (residual this w p) (residual this w p))))
        l (acc_sumErrors acc).
Proof. induction l as [|p l IH]; intros acc; simpl; [|rewrite IH]; auto. Qed.

Lemma contributions_sumConstraints (this : A) (w : W) :
  forall (l : list (Z * Z)) (acc : Accum Scalar),
    acc_sumConstraints (fold_left (contribution this w) l acc)
    = acc_sumConstraints acc + Z.of_nat (length l).
Proof.
  induction l as [|p l IH]; intros acc; simpl length; simpl fold_left.
  - lia.
  - rewrite IH. simpl. lia.
Qed.

Lemma accumulate_hessian (this : A) (w : W) :
  acc_hessian (accumulate this w) = hessian_sum this w (contributing this w).
Proof.
  unfold accumulate. rewrite scan_contributing. apply contributions_hessian.
Qed.

Lemma accumulate_b (this : A) (w : W) :
  acc_b (accumulate this w) = b_sum this w (contributing this w).
Proof.
  unfold accumulate. rewrite scan_contributing. apply contributions_b.
Qed.

Lemma accumulate_sumErrors (this : A) (w : W) :
  acc_sumErrors (accumulate this w) = error_sum this w (contributing this w).
Proof.
  unfold accumulate. rewrite scan_contributing.
  apply contributions_sumErrors.
Qed.

Lemma accumulate_sumConstraints (this : A) (w : W) :
  acc_sumConstraints (accumulate this w)
  = Z.of_nat (length (contributing this w)).
Proof.
  unfold accumulate. rewrite scan_contributing.
  rewrite contributions_sumConstraints. reflexivity.
Qed.

Lemma length_contributing_le (this : A) (w : W) :
  (length (contributing this w)
   <= length (interior (templateImage this)))%nat.
Proof. apply filter_length_le. Qed.

Lemma In_contributing (this : A) (w : W) (p : Z * Z) :
  In p (contributing this w)
  <-> In p (interior (templateImage this)) /\ contributes this w p = true.
Proof. apply filter_In. Qed.

(** The accumulators read the template only at the visited pixels. *)
Lemma accumulate_same_interior (this this' : A) (w : W) :
  same_interior (templateImage this) (templateImage this') ->
  targetImage this = targetImage this' ->
  accumulate this w = accumulate this' w.
Proof.
  intros (Hr & Hc & Hp) Ht. unfold accumulate.
  rewrite !scan_interior.
  assert (E : interior (templateImage this') = interior (templateImage this))
    by (unfold interior; now rewrite Hr, Hc).
  rewrite E. apply fold_left_ext_in. intros a [y x] Hin.
  apply In_interior in Hin. destruct Hin as [Hy Hx].
  unfold pixel. simpl fst; simpl snd.
  now rewrite <- Ht, (Hp y x Hy Hx).
Qed.
End Structure.

(** ** The normal equations *)

Section NormalEquations.
Context {Float Scalar W A : Type}.
Context {AR : Arith Float Scalar} {WP : Warp Scalar W}.
Context {KR : Kernels Float Scalar} {AB : AlignBase Float A}.

(** C1.  The returned [delta] is the inverse of [H] applied to [b], where
    [H] is the sum of [sdi^T * sdi] and [b] the sum of [sdi^T * err] over
    exactly the visited pixels that pass the bounds test, both started from
    zero; the solve is [inv] followed by one matrix product. *)
Theorem alignImpl_delta_is_inverse_times_b (this : A) (w : W) :
  delta (alignImpl this w)
  = matmul (numParameters w)
      (inv (numParameters w) (hessian_sum this w (contributing this w)))
      (b_sum this w (contributing this w)).
Proof.
  unfold alignImpl. cbn [delta].
  now rewrite accumulate_hessian, accumulate_b.
Qed.

(** C2, as amended.  When the constraint count of a call is zero the call
    still returns: the result carries a zero error sum and the [delta]
    obtained by inverting the zero Hessian and applying it to the zero
    vector. *)
Theorem alignImpl_without_constraints_returns (this : A) (w : W) :
  numConstraints (alignImpl this w) = 0 ->
  alignImpl_call this w = Returned (alignImpl this w) /\
  sumErrors (alignImpl this w) = szero /\
  delta (alignImpl this w)
  = matmul (numParameters w)
      (inv (numParameters w) (zeroHessian (numParameters w)))
      (zeroParam (numParameters w)).
Proof.
  intros H0. split; [reflexivity|].
  assert (E : contributing this w = []).
  { unfold alignImpl in H0. cbn [numConstraints] in H0.
    rewrite accumulate_sumConstraints in H0.
    destruct (contributing this w); [reflexivity|simpl in H0; lia]. }
  split.
  - unfold alignImpl. cbn [sumErrors].
    now rewrite accumulate_sumErrors, E.
  - unfold alignImpl. cbn [delta].
    now rewrite accumulate_hessian, accumulate_b, E.
Qed.
End NormalEquations.

(** ** What a pixel contributes, and which pixels do *)

Lemma NoDup_int_range (lo hi : Z) : NoDup (int_range lo hi).
Proof.
  unfold int_range. apply NoDup_map_NoDup_ForallPairs; [|apply seq_NoDup].
  intros n m _ _ H. lia.
Qed.

Lemma NoDup_flat_map {X Y : Type} (g : X -> list Y) :
  forall l : list X,
    NoDup l ->
    (forall x, NoDup (g x)) ->
    (forall x x' y, In y (g x) -> In y (g x') -> x = x') ->
    NoDup (flat_map g l).
Proof.
  intros l Hl Hg Hinj. induction Hl as [|x l Hx Hl IH]; simpl.
  - constructor.
  - apply NoDup_app; [apply Hg | exact IH |].
    intros y Hy Hin. apply in_flat_map in Hin.
    destruct Hin as [x' [Hx' Hy']].
    rewrite (Hinj x x' y Hy Hy') in Hx. contradiction.
Qed.

Section Scan.
Context {Float Scalar W A : Type}.
Context {AR : Arith Float Scalar} {WP : Warp Scalar W}.
Context {KR : Kernels Float Scalar} {AB : AlignBase Float A}.

(** Every pixel is visited once. *)
Lemma NoDup_interior (tpl : Mat Float) : NoDup (interior tpl).
Proof.
  unfold interior. apply NoDup_flat_map.
  - apply NoDup_int_range.
  - intros y. apply NoDup_map_NoDup_ForallPairs; [|apply NoDup_int_range].
    intros x x' _ _ E. now inversion E.
  - intros y y' p Hy Hy'. apply in_map_iff in Hy, Hy'.
    destruct Hy as [x [<- _]]. destruct Hy' as [x' [E _]].
    now inversion E.
Qed.

Lemma NoDup_contributing (this : A) (w : W) : NoDup (contributing this w).
Proof. apply NoDup_filter, NoDup_interior. Qed.

Lemma pixel_contributing (this : A) (w : W) (acc : Accum Scalar) (y x : Z) :
  In (y, x) (contributing this w) ->
  pixel this w acc y x = contribution this w acc (y, x).
Proof.
  intros Hin. apply In_contributing in Hin. destruct Hin as [_ Hc].
  change (pixel this w acc y x)
    with (pixel this w acc (fst (y, x)) (snd (y, x))).
  now rewrite pixel_cases, Hc.
Qed.

(** Two ways for a call to end without constraints: a template with fewer
    than three rows or columns, and a warp whose every image is rejected. *)
Lemma small_template_no_constraints (this : A) (w : W) :
  rows (templateImage this) < 3 \/ cols (templateImage this) < 3 ->
  numConstraints (alignImpl this w) = 0.
Proof.
  intros Hsmall. unfold alignImpl. cbn [numConstraints].
  rewrite accumulate_sumConstraints.
  pose proof (length_contributing_le this w) as Hle.
  pose proof (length_interior (templateImage this)) as Hlen.
  assert (Hz : Z.max 0 (rows (templateImage this) - 2)
               * Z.max 0 (cols (templateImage this) - 2) = 0).
  { destruct Hsmall as [Hr|Hc].
    - rewrite (Z.max_l 0 (rows _ - 2)) by lia. lia.
    - rewrite (Z.max_l 0 (cols _ - 2)) by lia. lia. }
  lia.
Qed.

Lemma all_rejected_no_constraints (this : A) (w : W) :
  (forall p, In p (interior (templateImage this)) ->
             contributes this w p = false) ->
  numConstraints (alignImpl this w) = 0.
Proof.
  intros Hrej. unfold alignImpl. cbn [numConstraints].
  rewrite accumulate_sumConstraints.
  destruct (contributing this w) as [|p l] eqn:E; [reflexivity|].
  assert (Hin : In p (contributing this w)) by (rewrite E; now left).
  apply In_contributing in Hin. destruct Hin as [Hi Hc].
  rewrite (Hrej p Hi) in Hc. discriminate.
Qed.

(** C3.  At every contributing pixel the residual that enters the error sum
    and the right-hand side is the template intensity minus the intensity
    sampled from the target at the warped point. *)
Theorem residual_is_template_minus_target
    (this : A) (w : W) (acc : Accum Scalar) (y x : Z) :
  In (y, x) (contributing this w) ->
  let ptpl := {| px := scalar_of_int x; py := scalar_of_int y |} in
  let templateIntensity := ptr (templateImage this) y x in
  let targetIntensity := sample (targetImage this) (warp_at w ptpl) in
  let err := fsub templateIntensity targetIntensity in
  acc_sumErrors (pixel this w acc y x)
  = sadd (acc_sumErrors acc) (scalar_of_float (fmul err err)) /\
  acc_b (pixel this w acc y x)
  = madd (acc_b acc) (mscale (transpose (sdi this w (y, x))) err).
Proof.
  intros Hin. rewrite (pixel_contributing this w acc y x Hin).
  split; reflexivity.
Qed.

(** C4.  At every contributing pixel the gradient is taken on the target
    image at the warped point, the Jacobian at the template point, and the
    steepest-descent row that enters [b] and the Hessian is their
    product. *)
Theorem gradient_at_warped_point_jacobian_at_template_point
    (this : A) (w : W) (acc : Accum Scalar) (y x : Z) :
  In (y, x) (contributing this w) ->
  let ptpl := {| px := scalar_of_int x; py := scalar_of_int y |} in
  let ptgt := warp_at w ptpl in
  let sd := matmul 2 (gradient (targetImage this) ptgt) (jacobian w ptpl) in
  acc_hessian (pixel this w acc y x)
  = madd (acc_hessian acc) (matmul 1 (transpose sd) sd) /\
  acc_b (pixel this w acc y x)
  = madd (acc_b acc) (mscale (transpose sd) (residual this w (y, x))).
Proof.
  intros Hin. rewrite (pixel_contributing this w acc y x Hin).
  split; reflexivity.
Qed.

(** C5, as amended.  On a template of [N] rows and [M] columns the
    constraint count is at most [max(N-2,0) * max(M-2,0)], which is
    [(N-2) * (M-2)] once [N >= 2] and [M >= 2]; every contributing pixel
    lies in rows [1..N-2] and columns [1..M-2]; and the result does not
    change when the template is replaced by one that differs from it on the
    border only. *)
Theorem only_interior_pixels_contribute (this : A) (w : W) :
  let N := rows (templateImage this) in
  let M := cols (templateImage this) in
  numConstraints (alignImpl this w) <= Z.max 0 (N - 2) * Z.max 0 (M - 2) /\
  (2 <= N -> 2 <= M ->
   numConstraints (alignImpl this w) <= (N - 2) * (M - 2)) /\
  (forall y x, In (y, x) (contributing this w) ->
               1 <= y <= N - 2 /\ 1 <= x <= M - 2) /\
  accumulate this w
  = fold_left (contribution this w) (contributing this w) (init w) /\
  (forall this' : A,
      same_interior (templateImage this) (templateImage this') ->
      targetImage this = targetImage this' ->
      alignImpl this w = alignImpl this' w).
Proof.
  cbv zeta.
  assert (Hbound : numConstraints (alignImpl this w)
                   <= Z.max 0 (rows (templateImage this) - 2)
                      * Z.max 0 (cols (templateImage this) - 2)).
  { unfold alignImpl. cbn [numConstraints].
    rewrite accumulate_sumConstraints, <- length_interior.
    apply inj_le, length_contributing_le. }
  split; [exact Hbound|]. split.
  { intros HN HM. rewrite !Z.max_r in Hbound by lia. exact Hbound. }
  split.
  { intros y x Hin. apply In_contributing in Hin. destruct Hin as [Hin _].
    now apply In_interior in Hin. }
  split; [apply scan_contributing|].
  intros this' Hs Ht. unfold alignImpl.
  now rewrite (accumulate_same_interior this this' w Hs Ht).
Qed.

(** C6.  A visited pixel contributes exactly when the bounds test on its
    warped point, made against the target's size with a margin of one,
    succeeds: then all four accumulators receive its contribution (the
    count grows by one); otherwise all four are left as they were.  The
    accumulators at the end of the scan are the contributions of the
    pixels that pass, each taken once. *)
Theorem pixel_contributes_iff_in_image
    (this : A) (w : W) (acc : Accum Scalar) (y x : Z) :
  In (y, x) (interior (templateImage this)) ->
  let ptpl := {| px := scalar_of_int x; py := scalar_of_int y |} in
  let inside := isInImage (warp_at w ptpl) (size (targetImage this)) 1 in
  (In (y, x) (contributing this w) <-> inside = true) /\
  (inside = true ->
   pixel this w acc y x = contribution this w acc (y, x) /\
   acc_sumConstraints (pixel this w acc y x) = acc_sumConstraints acc + 1) /\
  (inside = false -> pixel this w acc y x = acc) /\
  NoDup (contributing this w) /\
  accumulate this w
  = fold_left (contribution this w) (contributing this w) (init w).
Proof.
  intros Hin ptpl inside.
  assert (Hc : contributes this w (y, x) = inside) by reflexivity.
  assert (Hp : pixel this w acc y x
               = if inside then contribution this w acc (y, x) else acc).
  { rewrite <- Hc. apply (pixel_cases this w acc (y, x)). }
  repeat split.
  - intros H. apply In_contributing in H. now rewrite <- Hc.
  - intros H. apply In_contributing. now rewrite Hc.
  - now rewrite Hp, H.
  - now rewrite Hp, H.
  - intros H. now rewrite Hp, H.
  - apply NoDup_contributing.
  - apply scan_contributing.
Qed.

(** C7.  The accumulators of a call start at zero, and of two consecutive
    steps the second returns what a first call on the updated warp returns:
    its count and sums range over the pixels contributing under the updated
    warp only, added onto zero. *)
Theorem accumulators_start_at_zero_each_step (this : A) (w : W) :
  (forall i j, acc_hessian (init w) i j = szero) /\
  (forall i j, acc_b (init w) i j = szero) /\
  acc_sumErrors (init w) = szero /\
  acc_sumConstraints (init w) = 0 /\
  accumulate this w = scan this w (init w) /\
  let (w1, r1) := step this w in
  let (w2, r2) := step this w1 in
  r1 = alignImpl this w /\
  w1 = applyStep w r1 /\
  r2 = alignImpl this w1 /\
  numConstraints r2 = Z.of_nat (length (contributing this w1)) /\
  sumErrors r2 = error_sum this w1 (contributing this w1) /\
  delta r2
  = matmul (numParameters w1)
      (inv (numParameters w1) (hessian_sum this w1 (contributing this w1)))
      (b_sum this w1 (contributing this w1)).
Proof.
  do 5 (split; [reflexivity|]).
  unfold step. cbv beta iota zeta.
  do 3 (split; [reflexivity|]).
  set (w1 := applyStep w (alignImpl this w)).
  unfold alignImpl at 1 2 3. cbn [numConstraints sumErrors delta].
  rewrite accumulate_sumConstraints, accumulate_sumErrors,
    accumulate_hessian, accumulate_b.
  repeat split.
Qed.

(** C10.  Two calls on equal template pixels, the same target image and the
    same warp return the same result, whatever else the two aligner
    objects hold, and [applyStep] then makes the same additive update of
    the warp by the returned [delta]. *)
Theorem step_is_deterministic (this1 this2 : A) (w1 w2 : W) :
  same_pixels (templateImage this1) (templateImage this2) ->
  targetImage this1 = targetImage this2 ->
  w1 = w2 ->
  alignImpl this1 w1 = alignImpl this2 w2 /\
  applyStep w1 (alignImpl this1 w1) = applyStep w2 (alignImpl this2 w2) /\
  applyStep w1 (alignImpl this1 w1)
  = updateForwardAdditive w1 (delta (alignImpl this1 w1)) /\
  step this1 w1 = step this2 w2.
Proof.
  intros (Hr & Hc & Hp) Ht <-.
  assert (E : alignImpl this1 w1 = alignImpl this2 w1).
  { unfold alignImpl.
    rewrite (accumulate_same_interior this1 this2 w1); [reflexivity| |exact Ht].
    repeat split; [exact Hr | exact Hc |].
    intros y x Hy Hx. apply Hp; lia. }
  unfold step. rewrite E. repeat split.
Qed.
End Scan.

(** ** Self-alignment under the identity warp *)


Section DotProducts.
Context {Float Scalar : Type} {AR : Arith Float Scalar}.

Lemma dot_S (n : nat) (f g : nat -> Scalar) :
  dot (S n) f g = sadd (dot n f g) (smul (f n) (g n)).
Proof. unfold dot. now rewrite seq_S, fold_left_app. Qed.

Lemma dot_ext (n : nat) (f f' g g' : nat -> Scalar) :
  (forall k, f k = f' k) -> (forall k, g k = g' k) ->
  dot n f g = dot n f' g'.
Proof.
  intros Hf Hg. induction n as [|n IH]; [reflexivity|].
  now rewrite !dot_S, IH, Hf, Hg.
Qed.

Lemma dot_zero_r (n : nat) (f g : nat -> Scalar) :
  sadd szero szero = szero ->
  (forall s, smul s szero = szero) ->
  (forall k, g k = szero) ->
  dot n f g = szero.
Proof.
  intros Ha Hm Hg. induction n as [|n IH]; [reflexivity|].
  now rewrite dot_S, IH, Hg, Hm, Ha.
Qed.
End DotProducts.

Section Identity.
Context {Float Scalar W A : Type}.
Context {AR : Arith Float Scalar} {WP : Warp Scalar W}.
Context {KR : Kernels Float Scalar} {AB : AlignBase Float A}.

Lemma error_sum_zero (this : A) (w : W) (fzero : Float) :
  zero_laws fzero ->
  forall l : list (Z * Z),
    (forall p, In p l -> residual this w p = fzero) ->
    error_sum this w l = szero.
Proof.
  intros (_ & Hmul & Hcast & Hadd & _) l. unfold error_sum.
  generalize (eq_refl (@szero Float Scalar AR)).
  generalize (@szero Float Scalar AR) at 1 3 as s.
  induction l as [|p l IH]; intros s Hs Hres; simpl; [exact Hs|].
  apply IH.
  - rewrite Hs, (Hres p) by now left. now rewrite Hmul, Hcast, Hadd.
  - intros q Hq. apply Hres. now right.
Qed.

Lemma b_sum_zero (this : A) (w : W) (fzero : Float) :
  zero_laws fzero ->
  forall l : list (Z * Z),
    (forall p, In p l -> residual this w p = fzero) ->
    forall i j, b_sum this w l i j = szero.
Proof.
  intros (_ & _ & Hcast & Hadd & Hmul) l. unfold b_sum.
  assert (Hz : forall i j,
             zeroParam (Float := Float) (numParameters w) i j = szero)
    by reflexivity.
  revert Hz. generalize (zeroParam (Float := Float) (numParameters w)) as v.
  induction l as [|p l IH]; intros v Hv Hres i j; simpl; [apply Hv|].
  apply IH.
  - intros i' j'. unfold madd, mscale.
    rewrite Hv, (Hres p) by now left. now rewrite Hcast, Hmul, Hadd.
  - intros q Hq. apply Hres. now right.
Qed.





End Identity.

(** ** The Hessian at the solve *)

Section OrderedScalars.
Context {Float Scalar W A : Type}.
Context {AR : Arith Float Scalar} {WP : Warp Scalar W}.
Context {KR : Kernels Float Scalar} {AB : AlignBase Float A}.

Variables (sone : Scalar) (ssub : Scalar -> Scalar -> Scalar)
          (sopp : Scalar -> Scalar) (sle slt : Scalar -> Scalar -> Prop).
Hypothesis sor : SOR szero sone sadd smul ssub sopp eq sle slt.

Add Ring scalar_ring : (SORrt sor).

Lemma dot_add_l (n : nat) (f f' g : nat -> Scalar) :
  dot n (fun k => sadd (f k) (f' k)) g = sadd (dot n f g) (dot n f' g).
Proof.
  induction n as [|n IH]; [unfold dot; simpl; ring|].
  rewrite !dot_S, IH. ring.
Qed.

Lemma dot_add_r (n : nat) (f g g' : nat -> Scalar) :
  dot n f (fun k => sadd (g k) (g' k)) = sadd (dot n f g) (dot n f g').
Proof.
  induction n as [|n IH]; [unfold dot; simpl; ring|].
  rewrite !dot_S, IH. ring.
Qed.

Lemma dot_scale_l (n : nat) (c : Scalar) (f g : nat -> Scalar) :
  dot n (fun k => smul c (f k)) g = smul c (dot n f g).
Proof.
  induction n as [|n IH]; [unfold dot; simpl; ring|].
  rewrite !dot_S, IH. ring.
Qed.

Lemma dot_scale_r (n : nat) (c : Scalar) (f g : nat -> Scalar) :
  dot n f (fun k => smul (g k) c) = smul (dot n f g) c.
Proof.
  induction n as [|n IH]; [unfold dot; simpl; ring|].
  rewrite !dot_S, IH. ring.
Qed.

Lemma dot_comm (n : nat) (f g : nat -> Scalar) : dot n f g = dot n g f.
Proof.
  induction n as [|n IH]; [reflexivity|].
  rewrite !dot_S, IH. ring.
Qed.

Lemma dot_const_zero_r (n : nat) (f : nat -> Scalar) :
  dot n f (fun _ => szero) = szero.
Proof.
  induction n as [|n IH]; [reflexivity|].
  rewrite dot_S, IH. ring.
Qed.

(** An entry of the outer product [sd^T * sd]. *)
Lemma outer_entry (sd : Matx Scalar) (i j : nat) :
  matmul 1 (transpose sd) sd i j = smul (sd 0%nat i) (sd 0%nat j).
Proof. unfold matmul, transpose, dot. simpl. ring. Qed.

Lemma quad_zero (n : nat) (x : nat -> Scalar) :
  quad n (zeroHessian (Float := Float) n) x = szero.
Proof.
  unfold quad, zeroHessian.
  rewrite (dot_ext n x x _ (fun _ => szero)).
  - apply dot_const_zero_r.
  - reflexivity.
  - intros i. rewrite dot_comm. apply dot_const_zero_r.
Qed.

Lemma quad_madd (n : nat) (H K : Matx Scalar) (x : nat -> Scalar) :
  quad n (madd H K) x = sadd (quad n H x) (quad n K x).
Proof.
  unfold quad. rewrite <- dot_add_r.
  apply dot_ext; [reflexivity|]. intros i.
  unfold madd. apply dot_add_l.
Qed.

Lemma quad_outer (n : nat) (sd : Matx Scalar) (x : nat -> Scalar) :
  quad n (matmul 1 (transpose sd) sd) x
  = smul (dot n x (sd 0%nat)) (dot n x (sd 0%nat)).
Proof.
  unfold quad.
  rewrite (dot_ext n x x _ (fun i => smul (sd 0%nat i) (dot n x (sd 0%nat)))).
  - apply dot_scale_r.
  - reflexivity.
  - intros i. rewrite (dot_comm n x).
    rewrite <- dot_scale_l. apply dot_ext; [|reflexivity].
    intros j. apply outer_entry.
Qed.

Lemma hessian_sum_symmetric (this : A) (w : W) (l : list (Z * Z)) :
  forall i j, hessian_sum this w l i j = hessian_sum this w l j i.
Proof.
  unfold hessian_sum.
  assert (Hz : forall i j,
             zeroHessian (Float := Float) (numParameters w) i j
             = zeroHessian (Float := Float) (numParameters w) j i)
    by reflexivity.
  revert Hz. generalize (zeroHessian (Float := Float) (numParameters w)) as h.
  induction l as [|p l IH]; intros h Hh i j; simpl; [apply Hh|].
  apply IH. intros i' j'. unfold madd.
  rewrite !outer_entry, (Hh i' j'). ring.
Qed.

Lemma hessian_sum_nonneg (this : A) (w : W) (l : list (Z * Z))
      (x : nat -> Scalar) :
  sle szero (quad (numParameters w) (hessian_sum this w l) x).
Proof.
  unfold hessian_sum.
  assert (Hz : sle szero
                 (quad (numParameters w)
                       (zeroHessian (Float := Float) (numParameters w)) x)).
  { rewrite quad_zero. apply (Rle_refl sor). }
  revert Hz. generalize (zeroHessian (Float := Float) (numParameters w)) as h.
  induction l as [|p l IH]; intros h Hh; simpl; [exact Hh|].
  apply IH. rewrite quad_madd, quad_outer.
  apply (Rplus_nonneg_nonneg sor); [exact Hh|].
  apply (Rtimes_square_nonneg sor).
Qed.

End OrderedScalars.

(** Symmetry alone needs no ring: it is enough that the scalar product
    commutes, as it does under rounding. *)
Section CommutativeProduct.
Context {Float Scalar W A : Type}.
Context {AR : Arith Float Scalar} {WP : Warp Scalar W}.
Context {KR : Kernels Float Scalar} {AB : AlignBase Float A}.

Lemma hessian_symmetric_when_product_commutes (this : A) (w : W) :
  (forall a c : Scalar, smul a c = smul c a) ->
  forall i j,
    acc_hessian (accumulate this w) i j = acc_hessian (accumulate this w) j i.
Proof.
  intros Hcomm. rewrite accumulate_hessian. unfold hessian_sum.
  assert (Hz : forall i j,
             zeroHessian (Float := Float) (numParameters w) i j
             = zeroHessian (Float := Float) (numParameters w) j i)
    by reflexivity.
  revert Hz. generalize (zeroHessian (Float := Float) (numParameters w)) as h.
  induction (contributing this w) as [|p l IH]; intros h Hh i j; simpl;
    [apply Hh|].
  apply IH. intros i' j'. unfold madd, matmul, transpose, dot. simpl.
  now rewrite (Hh i' j'), (Hcomm (sdi this w p 0%nat i')).
Qed.

(** C9, as amended.  When the scalar product commutes, as it does under
    rounding, the Hessian handed to the solve is symmetric; it is the sum,
    in scan order, of the outer products [sd^T * sd] of the contributing
    pixels, and the zero matrix when no pixel contributes.  Its quadratic
    form is nowhere negative when the scalars form an ordered ring, that is
    in exact arithmetic. *)
Theorem hessian_symmetric_sum_of_outer_products (this : A) (w : W) :
  (forall a c : Scalar, smul a c = smul c a) ->
  let H := acc_hessian (accumulate this w) in
  H = hessian_sum this w (contributing this w) /\
  (forall i j, H i j = H j i) /\
  (contributing this w = [] -> forall i j, H i j = szero) /\
  (forall (sone : Scalar) (ssub : Scalar -> Scalar -> Scalar)
          (sopp : Scalar -> Scalar) (sle slt : Scalar -> Scalar -> Prop),
      SOR szero sone sadd smul ssub sopp eq sle slt ->
      forall x, sle szero (quad (numParameters w) H x)).
Proof.
  intros Hcomm. cbv zeta. split; [apply accumulate_hessian|].
  split; [now apply hessian_symmetric_when_product_commutes|].
  split.
  - intros E i j. now rewrite accumulate_hessian, E.
  - intros sone ssub sopp sle slt sor x. rewrite accumulate_hessian.
    apply (hessian_sum_nonneg sone ssub sopp sle slt sor).
Qed.
End CommutativeProduct.

(** ** The concrete instance at work *)

Module Examples.
Import Demo.

(** The collaborators of the concrete instance honour the contracts. *)
Lemma no_shift_is_identity : identity_warp no_shift.
Proof. intros [x y]. cbn. f_equal; lia. Qed.

Lemma demo_samples_grid (img : Mat Z) : samples_grid img.
Proof. intros p _. reflexivity. Qed.

Lemma demo_accepts_grid (img : Mat Z) : accepts_grid img.
Proof.
  intros [y x] Hin. apply In_interior in Hin. cbn.
  unfold in_image. cbn.
  repeat (apply andb_true_intro; split);
    first [apply Z.leb_le | apply Z.ltb_lt]; lia.
Qed.

Lemma integer_zero_laws : zero_laws 0.
Proof. repeat split; intros; cbn; lia. Qed.

Lemma ramp_same_pixels : same_pixels ramp ramp.
Proof. repeat split. Qed.

Lemma ramp_framed_same_interior : same_interior ramp ramp_framed.
Proof.
  repeat split. cbn. intros y x Hy Hx.
  assert (E : ((1 <=? y) && (y <=? 2) && (1 <=? x) && (x <=? 3))%bool = true).
  { repeat (apply andb_true_intro; split); apply Z.leb_le; lia. }
  now rewrite E.
Qed.

(** Evaluations of one step.  A template one column off a quadratic ramp:
    the residual at pixel (1,1) is [4 - 7], and the Hessian, right-hand
    side, error sum and count over the four contributing pixels. *)
Example residual_sign : residual self_aligner one_right (1, 1) = -3.
Proof. reflexivity. Qed.

Example one_right_contributing :
  contributing self_aligner one_right = [(1, 1); (1, 2); (2, 1); (2, 2)].
Proof. reflexivity. Qed.

Example one_right_accumulators :
  let a := accumulate self_aligner one_right in
  (acc_hessian a 0 0, acc_hessian a 0 1, acc_hessian a 1 0,
   acc_hessian a 1 1)%nat = (416, 240, 240, 144) /\
  (acc_b a 0 0, acc_b a 1 0)%nat = (-168, -96) /\
  acc_sumErrors a = 68 /\ acc_sumConstraints a = 4.
Proof. repeat split. Qed.

(** The border of the template is never read. *)
Example framed_template_same_result :
  numConstraints (alignImpl framed_aligner one_right) = 4 /\
  sumErrors (alignImpl framed_aligner one_right) = 68.
Proof. split; reflexivity. Qed.

Example framed_template_same_accumulators :
  accumulate self_aligner one_right = accumulate framed_aligner one_right.
Proof.
  apply accumulate_same_interior;
    [exact ramp_framed_same_interior | reflexivity].
Qed.

(** C2, counterexample.  A warp that sends every template pixel far outside
    the target: no pixel contributes, and the call returns a result instead
    of failing. *)
Lemma no_data_call_returns :
  contributing self_aligner far_away = [] /\
  numConstraints (alignImpl self_aligner far_away) = 0 /\
  alignImpl_call self_aligner far_away <> Failed AlignmentNoDataError /\
  alignImpl_call self_aligner far_away
  = Returned (alignImpl self_aligner far_away) /\
  delta (alignImpl self_aligner far_away) 0%nat 0%nat = 0.
Proof.
  split; [reflexivity|]. split; [reflexivity|].
  split; [discriminate|]. split; reflexivity.
Qed.

Lemma no_data_result_witness :
  numConstraints (alignImpl self_aligner far_away) = 0 /\
  alignImpl_call self_aligner far_away
  = Returned (alignImpl self_aligner far_away) /\
  sumErrors (alignImpl self_aligner far_away) = 0.
Proof.
  split; [reflexivity|].
  split;
    [ exact (proj1 (alignImpl_without_constraints_returns
                      self_aligner far_away eq_refl))
    | exact (proj1 (proj2 (alignImpl_without_constraints_returns
                             self_aligner far_away eq_refl))) ].
Defined.

Lemma residual_witness :
  In (1, 1) (contributing self_aligner one_right) /\
  acc_sumErrors (pixel self_aligner one_right (init one_right) 1 1)
  = 0 + (4 - 7) * (4 - 7).
Proof.
  assert (Hin : In (1, 1) (contributing self_aligner one_right))
    by (left; reflexivity).
  split; [exact Hin|].
  exact (proj1 (residual_is_template_minus_target
                  self_aligner one_right (init one_right) 1 1 Hin)).
Defined.

Lemma steepest_descent_witness :
  In (1, 1) (contributing shifted_aligner no_shift) /\
  acc_hessian (pixel shifted_aligner no_shift (init no_shift) 1 1) 0%nat 0%nat
  = 0 + (0 + ((9 + 3) - (1 + 3)) * ((9 + 3) - (1 + 3))).
Proof.
  assert (Hin : In (1, 1) (contributing shifted_aligner no_shift))
    by (left; reflexivity).
  split; [exact Hin|].
  exact (f_equal (fun m : Matx Z => m 0%nat 0%nat)
           (proj1 (gradient_at_warped_point_jacobian_at_template_point
                     shifted_aligner no_shift (init no_shift) 1 1 Hin))).
Defined.

(** C5, counterexample.  A template of one row and five columns: nothing
    contributes, yet [(1-2) * (5-2)] is negative. *)
Lemma strip_count_exceeds_product :
  rows (templateImage strip_aligner) = 1 /\
  cols (templateImage strip_aligner) = 5 /\
  numConstraints (alignImpl strip_aligner no_shift) = 0 /\
  ~ (numConstraints (alignImpl strip_aligner no_shift)
     <= (rows (templateImage strip_aligner) - 2)
        * (cols (templateImage strip_aligner) - 2)).
Proof.
  split; [reflexivity|]. split; [reflexivity|]. split; [reflexivity|].
  cbn. lia.
Qed.

Lemma margin_witness :
  In (1, 3) (interior (templateImage self_aligner)) /\
  ~ In (1, 3) (contributing self_aligner one_right) /\
  pixel self_aligner one_right (init one_right) 1 3 = init one_right.
Proof.
  assert (Hin : In (1, 3) (interior (templateImage self_aligner)))
    by (right; right; left; reflexivity).
  pose proof (pixel_contributes_iff_in_image
                self_aligner one_right (init one_right) 1 3 Hin) as H.
  cbv zeta in H. destruct H as (Hiff & _ & Hskip & _).
  split; [exact Hin|]. split.
  - intros Hc. apply Hiff in Hc. discriminate Hc.
  - apply Hskip. reflexivity.
Defined.

Lemma determinism_witness :
  same_pixels (templateImage self_aligner)
              (templateImage self_aligner_later) /\
  alignImpl self_aligner one_right = alignImpl self_aligner_later one_right /\
  step self_aligner one_right = step self_aligner_later one_right.
Proof.
  pose proof (step_is_deterministic
                self_aligner self_aligner_later one_right one_right
                ramp_same_pixels eq_refl eq_refl) as H.
  destruct H as (Ha & _ & _ & Hs).
  split; [exact ramp_same_pixels|]. split; [exact Ha | exact Hs].
Defined.
End Examples.


(** * Further properties of one call *)

(** ** The diagnostics and the inputs they depend on *)

Section Diagnostics.
Context {Float Scalar W A : Type}.
Context {AR : Arith Float Scalar} {WP : Warp Scalar W}.
Context {KR : Kernels Float Scalar} {AB : AlignBase Float A}.

Lemma result_without_contributing (this : A) (w : W) :
  contributing this w = [] ->
  numConstraints (alignImpl this w) = 0 /\
  sumErrors (alignImpl this w) = szero /\
  delta (alignImpl this w)
  = matmul (numParameters w)
      (inv (numParameters w) (zeroHessian (numParameters w)))
      (zeroParam (numParameters w)).
Proof.
  intros E. unfold alignImpl. cbn [numConstraints sumErrors delta].
  rewrite accumulate_sumConstraints, accumulate_sumErrors,
    accumulate_hessian, accumulate_b, E.
  repeat split.
Qed.

(** X1.  The two diagnostics of a call: the constraint count is the number
    of visited pixels that pass the bounds test, hence never negative, and
    the error sum is the squared residuals of those pixels added in scan
    order onto zero. *)
Theorem alignImpl_diagnostics (this : A) (w : W) :
  numConstraints (alignImpl this w)
  = Z.of_nat (length (contributing this w)) /\
  0 <= numConstraints (alignImpl this w) /\
  sumErrors (alignImpl this w) = error_sum this w (contributing this w).
Proof.
  unfold alignImpl. cbn [numConstraints sumErrors].
  rewrite accumulate_sumConstraints, accumulate_sumErrors.
  repeat split. lia.
Qed.

(** X2.  A template with fewer than three rows or fewer than three columns
    is never scanned: whatever the target and the warp, the count is zero,
    the error sum is zero and [delta] is the inverse of the zero Hessian
    applied to the zero vector. *)
Theorem small_template_result (this : A) (w : W) :
  rows (templateImage this) < 3 \/ cols (templateImage this) < 3 ->
  interior (templateImage this) = [] /\
  numConstraints (alignImpl this w) = 0 /\
  sumErrors (alignImpl this w) = szero /\
  delta (alignImpl this w)
  = matmul (numParameters w)
      (inv (numParameters w) (zeroHessian (numParameters w)))
      (zeroParam (numParameters w)).
Proof.
  intros Hsmall.
  assert (E : interior (templateImage this) = []).
  { pose proof (length_interior (templateImage this)) as Hlen.
    destruct (interior (templateImage this)) as [|p l]; [reflexivity|].
    exfalso. cbn [length] in Hlen.
    destruct Hsmall as [Hr|Hc].
    - rewrite (Z.max_l 0 (rows _ - 2)) in Hlen by lia. lia.
    - rewrite (Z.max_l 0 (cols _ - 2)) in Hlen by lia. lia. }
  split; [exact E|].
  apply result_without_contributing. unfold contributing. now rewrite E.
Qed.

(** X3.  The count of a call is zero exactly when every visited pixel fails
    the bounds test. *)
Theorem no_constraints_iff_all_rejected (this : A) (w : W) :
  numConstraints (alignImpl this w) = 0
  <-> forall p, In p (interior (templateImage this)) ->
                contributes this w p = false.
Proof.
  split.
  - intros H0 p Hp. unfold alignImpl in H0. cbn [numConstraints] in H0.
    rewrite accumulate_sumConstraints in H0.
    destruct (contributes this w p) eqn:Hc; [|reflexivity].
    assert (Hin : In p (contributing this w))
      by (apply In_contributing; now split).
    destruct (contributing this w); [contradiction|].
    cbn [length] in H0. lia.
  - apply all_rejected_no_constraints.
Qed.

Lemma contributing_same_target (this this' : A) (w : W) :
  rows (templateImage this) = rows (templateImage this') ->
  cols (templateImage this) = cols (templateImage this') ->
  targetImage this = targetImage this' ->
  contributing this' w = contributing this w.
Proof.
  intros Hr Hc Ht. unfold contributing, interior, contributes.
  now rewrite Hr, Hc, Ht.
Qed.

(** X4.  The template is read only at the contributing pixels: a template of
    the same extents that agrees with it there, and differs anywhere else,
    gives the same result against the same target and warp. *)
Theorem template_read_at_contributing_pixels_only (this this' : A) (w : W) :
  rows (templateImage this) = rows (templateImage this') ->
  cols (templateImage this) = cols (templateImage this') ->
  targetImage this = targetImage this' ->
  (forall p, In p (contributing this w) ->
             ptr (templateImage this) (fst p) (snd p)
             = ptr (templateImage this') (fst p) (snd p)) ->
  alignImpl this w = alignImpl this' w.
Proof.
  intros Hr Hc Ht Hp.
  assert (E : accumulate this w = accumulate this' w).
  { unfold accumulate. rewrite !scan_contributing.
    rewrite (contributing_same_target this this' w Hr Hc Ht).
    apply fold_left_ext_in. intros a p Hin.
    unfold contribution, residual, sdi.
    now rewrite <- Ht, (Hp p Hin). }
  unfold alignImpl. now rewrite E.
Qed.

(** X5.  The warp is consulted only at the visited template points: two
    warps with the same parameter count that have the same image and the
    same Jacobian at each of those points give the same result. *)
Theorem warp_read_at_template_points_only (this : A) (w1 w2 : W) :
  same_on_grid (templateImage this) w1 w2 ->
  alignImpl this w1 = alignImpl this w2.
Proof.
  intros [Hn Hg].
  assert (E : accumulate this w1 = accumulate this w2).
  { unfold accumulate. rewrite !scan_interior.
    replace (init w2) with (init w1) by (unfold init; now rewrite Hn).
    apply fold_left_ext_in. intros a [y x] Hin.
    destruct (Hg (y, x) Hin) as [Hw Hj].
    unfold template_point in Hw, Hj. cbn [fst snd] in *.
    unfold pixel. now rewrite Hw, Hj. }
  unfold alignImpl. now rewrite E, Hn.
Qed.
End Diagnostics.

(** ** A warp that already aligns the images *)

Section FixedPoint.
Context {Float Scalar W A : Type}.
Context {AR : Arith Float Scalar} {WP : Warp Scalar W}.
Context {KR : Kernels Float Scalar} {AB : AlignBase Float A}.

(** X6.  When the residual vanishes at every contributing pixel, under
    arithmetic that is exact around zero, the call returns a zero error sum
    and a zero [delta], whatever the gradients and the inverse are; and
    [applyStep] leaves a warp whose additive update by zero is the identity
    where it is. *)
Theorem aligned_warp_is_fixed_point (this : A) (w : W) (fzero : Float) :
  zero_laws fzero ->
  (forall p, In p (contributing this w) -> residual this w p = fzero) ->
  sumErrors (alignImpl this w) = szero /\
  (forall i j, delta (alignImpl this w) i j = szero) /\
  (zero_update_is_identity w -> applyStep w (alignImpl this w) = w).
Proof.
  intros Hlaws Hres.
  assert (Hd : forall i j, delta (alignImpl this w) i j = szero).
  { intros i j. unfold alignImpl. cbn [delta]. rewrite accumulate_b.
    unfold matmul. destruct Hlaws as (H1 & H2 & H3 & Hadd & Hmul).
    apply dot_zero_r; [exact Hadd | exact Hmul |].
    intros k. apply (b_sum_zero this w fzero); [|exact Hres].
    repeat split; assumption. }
  split; [|split].
  - unfold alignImpl. cbn [sumErrors]. rewrite accumulate_sumErrors.
    now apply (error_sum_zero this w fzero).
  - exact Hd.
  - intros Hupd. unfold applyStep. now apply Hupd.
Qed.
End FixedPoint.

(** ** Exact arithmetic: sums, order and the solve *)

Section ExactSums.
Context {Float Scalar W A : Type}.
Context {AR : Arith Float Scalar} {WP : Warp Scalar W}.
Context {KR : Kernels Float Scalar} {AB : AlignBase Float A}.

Variables (sone : Scalar) (ssub : Scalar -> Scalar -> Scalar)
          (sopp : Scalar -> Scalar) (sle slt : Scalar -> Scalar -> Prop).
Hypothesis sor : SOR szero sone sadd smul ssub sopp eq sle slt.

Add Ring exact_scalar_ring : (SORrt sor).

Lemma nonneg_sum_zero (a c : Scalar) :
  sle szero a -> sle szero c -> sadd a c = szero -> a = szero /\ c = szero.
Proof.
  intros Ha Hc E.
  assert (Ea : a = szero).
  { apply (Rle_antisymm sor); [|exact Ha].
    rewrite <- E. rewrite <- (Rplus_0_r sor a) at 1.
    now apply (Rplus_le_mono_l sor). }
  split; [exact Ea|]. rewrite Ea in E. rewrite <- E. ring.
Qed.

Lemma scalar_fold_nonneg {X : Type} (t : X -> Scalar) (l : list X) :
  (forall x, In x l -> sle szero (t x)) ->
  forall s, sle szero s ->
            sle szero (fold_left (fun s' x => sadd s' (t x)) l s).
Proof.
  induction l as [|x l IH]; intros Ht s Hs; simpl; [exact Hs|].
  apply IH.
  - intros y Hy. apply Ht. now right.
  - apply (Rplus_nonneg_nonneg sor); [exact Hs|]. apply Ht. now left.
Qed.

Lemma scalar_fold_zero {X : Type} (t : X -> Scalar) (l : list X) :
  (forall x, In x l -> sle szero (t x)) ->
  forall s, sle szero s ->
            fold_left (fun s' x => sadd s' (t x)) l s = szero ->
            s = szero /\ forall x, In x l -> t x = szero.
Proof.
  induction l as [|x l IH]; intros Ht s Hs E; simpl in E.
  - split; [exact E | intros y []].
  - assert (Hx : sle szero (t x)) by (apply Ht; now left).
    destruct (IH (fun y Hy => Ht y (or_intror Hy)) (sadd s (t x))
                 (Rplus_nonneg_nonneg sor _ _ Hs Hx) E) as [E1 Hrest].
    destruct (nonneg_sum_zero s (t x) Hs Hx E1) as [E2 E3].
    split; [exact E2|]. intros y [<-|Hy]; [exact E3 | now apply Hrest].
Qed.

Lemma scalar_fold_all_zero {X : Type} (t : X -> Scalar) (l : list X) :
  (forall x, In x l -> t x = szero) ->
  fold_left (fun s' x => sadd s' (t x)) l szero = szero.
Proof.
  induction l as [|x l IH]; intros Ht; simpl; [reflexivity|].
  rewrite (Ht x) by now left.
  replace (sadd szero szero) with (@szero Float Scalar AR) by ring.
  apply IH. intros y Hy. apply Ht. now right.
Qed.

(** X7.  Over an ordered ring in which the converted square of a residual is
    never negative, the error sum of a call is never negative, and it is
    zero exactly when the squared residual of every contributing pixel is
    zero. *)
Theorem error_sum_nonneg_and_definite (this : A) (w : W) :
  (forall e : Float, sle szero (scalar_of_float (fmul e e))) ->
  sle szero (sumErrors (alignImpl this w)) /\
  (sumErrors (alignImpl this w) = szero
   <-> forall p, In p (contributing this w) ->
                 scalar_of_float
                   (fmul (residual this w p) (residual this w p)) = szero).
Proof.
  intros Hsq. unfold alignImpl. cbn [sumErrors].
  rewrite accumulate_sumErrors. unfold error_sum. split; [|split].
  - apply scalar_fold_nonneg; [intros; apply Hsq | apply (Rle_refl sor)].
  - intros E.
    apply (scalar_fold_zero
             (fun p => scalar_of_float
                         (fmul (residual this w p) (residual this w p)))
             (contributing this w)
             (fun p _ => Hsq _) szero (Rle_refl sor szero) E).
  - intros Hz.
    apply (scalar_fold_all_zero
             (fun p => scalar_of_float
                         (fmul (residual this w p) (residual this w p)))).
    exact Hz.
Qed.

(** Sums of matrices and of scalars over a list of pixels: equal starting
    values give equal sums, the order of the list is immaterial, and the
    starting value can be added afterwards. *)
Lemma madd_fold_ext {X : Type} (c : X -> Matx Scalar) (l : list X) :
  forall h h' : Matx Scalar,
    (forall i j, h i j = h' i j) ->
    forall i j,
      fold_left (fun m x => madd m (c x)) l h i j
      = fold_left (fun m x => madd m (c x)) l h' i j.
Proof.
  induction l as [|x l IH]; intros h h' E i j; simpl; [apply E|].
  apply IH. intros i' j'. unfold madd. now rewrite E.
Qed.

Lemma madd_fold_perm {X : Type} (c : X -> Matx Scalar) (l l' : list X) :
  Permutation l l' ->
  forall (h : Matx Scalar) i j,
    fold_left (fun m x => madd m (c x)) l h i j
    = fold_left (fun m x => madd m (c x)) l' h i j.
Proof.
  induction 1 as [|x l l' _ IH|x y l|l l' l'' _ IH1 _ IH2]; intros h i j.
  - reflexivity.
  - simpl. apply IH.
  - simpl. apply madd_fold_ext. intros i' j'. unfold madd. ring.
  - now rewrite IH1, IH2.
Qed.

Lemma madd_fold_shift {X : Type} (c : X -> Matx Scalar) (l : list X) :
  forall (h : Matx Scalar) i j,
    fold_left (fun m x => madd m (c x)) l h i j
    = sadd (h i j)
           (fold_left (fun m x => madd m (c x)) l (fun _ _ => szero) i j).
Proof.
  induction l as [|x l IH]; intros h i j; simpl; [ring|].
  rewrite IH, (IH (madd (fun _ _ => szero) (c x))). unfold madd. ring.
Qed.

Lemma madd_fold_app {X : Type} (c : X -> Matx Scalar) (l1 l2 : list X) :
  forall i j,
    fold_left (fun m x => madd m (c x)) (l1 ++ l2) (fun _ _ => szero) i j
    = sadd (fold_left (fun m x => madd m (c x)) l1 (fun _ _ => szero) i j)
           (fold_left (fun m x => madd m (c x)) l2 (fun _ _ => szero) i j).
Proof. intros i j. rewrite fold_left_app. apply madd_fold_shift. Qed.

Lemma sadd_fold_perm {X : Type} (t : X -> Scalar) (l l' : list X) :
  Permutation l l' ->
  forall s,
    fold_left (fun s' x => sadd s' (t x)) l s
    = fold_left (fun s' x => sadd s' (t x)) l' s.
Proof.
  induction 1 as [|x l l' _ IH|x y l|l l' l'' _ IH1 _ IH2]; intros s.
  - reflexivity.
  - simpl. apply IH.
  - simpl. f_equal. ring.
  - now rewrite IH1, IH2.
Qed.

Lemma sadd_fold_shift {X : Type} (t : X -> Scalar) (l : list X) :
  forall s,
    fold_left (fun s' x => sadd s' (t x)) l s
    = sadd s (fold_left (fun s' x => sadd s' (t x)) l szero).
Proof.
  induction l as [|x l IH]; intros s; simpl; [ring|].
  rewrite IH, (IH (sadd szero (t x))). ring.
Qed.

(** X8.  In exact arithmetic the order of the scan is immaterial: adding the
    contributions of the contributing pixels in any other order gives the
    same Hessian, the same right-hand side and the same error sum. *)
Theorem scan_order_is_immaterial (this : A) (w : W) (l' : list (Z * Z)) :
  Permutation (contributing this w) l' ->
  (forall i j,
      acc_hessian (accumulate this w) i j = hessian_sum this w l' i j) /\
  (forall i j, acc_b (accumulate this w) i j = b_sum this w l' i j) /\
  sumErrors (alignImpl this w) = error_sum this w l'.
Proof.
  intros Hperm. split; [|split].
  - intros i j. rewrite accumulate_hessian. unfold hessian_sum.
    now apply madd_fold_perm.
  - intros i j. rewrite accumulate_b. unfold b_sum.
    now apply madd_fold_perm.
  - unfold alignImpl. cbn [sumErrors]. rewrite accumulate_sumErrors.
    unfold error_sum. now apply sadd_fold_perm.
Qed.

(** X9.  In exact arithmetic the scan can be split: for any division of the
    contributing pixels into two parts, each accumulated on its own from
    zero, the Hessian, the right-hand side, the error sum and the count of
    the call are the sums of the two partial results. *)
Theorem partial_accumulators_add_up
    (this : A) (w : W) (l1 l2 : list (Z * Z)) :
  Permutation (contributing this w) (l1 ++ l2) ->
  (forall i j,
      acc_hessian (accumulate this w) i j
      = sadd (hessian_sum this w l1 i j) (hessian_sum this w l2 i j)) /\
  (forall i j,
      acc_b (accumulate this w) i j
      = sadd (b_sum this w l1 i j) (b_sum this w l2 i j)) /\
  sumErrors (alignImpl this w)
  = sadd (error_sum this w l1) (error_sum this w l2) /\
  numConstraints (alignImpl this w)
  = Z.of_nat (length l1) + Z.of_nat (length l2).
Proof.
  intros Hperm. split; [|split; [|split]].
  - intros i j. rewrite accumulate_hessian. unfold hessian_sum.
    rewrite (madd_fold_perm _ _ _ Hperm). apply madd_fold_app.
  - intros i j. rewrite accumulate_b. unfold b_sum.
    rewrite (madd_fold_perm _ _ _ Hperm). apply madd_fold_app.
  - unfold alignImpl. cbn [sumErrors]. rewrite accumulate_sumErrors.
    unfold error_sum. rewrite (sadd_fold_perm _ _ _ Hperm).
    rewrite fold_left_app. apply sadd_fold_shift.
  - unfold alignImpl. cbn [numConstraints].
    rewrite accumulate_sumConstraints.
    rewrite (Permutation_length Hperm), length_app. lia.
Qed.
End ExactSums.

(** ** The solve, when the inverse is one *)

Section Solve.
Context {Float Scalar W A : Type}.
Context {AR : Arith Float Scalar} {WP : Warp Scalar W}.
Context {KR : Kernels Float Scalar} {AB : AlignBase Float A}.

Variables (sone : Scalar) (ssub : Scalar -> Scalar -> Scalar)
          (sopp : Scalar -> Scalar) (sle slt : Scalar -> Scalar -> Prop).
Hypothesis sor : SOR szero sone sadd smul ssub sopp eq sle slt.

Add Ring solve_scalar_ring : (SORrt sor).

Lemma dot_ext_lt (n : nat) (f f' g g' : nat -> Scalar) :
  (forall k, (k < n)%nat -> f k = f' k) ->
  (forall k, (k < n)%nat -> g k = g' k) ->
  dot n f g = dot n f' g'.
Proof.
  induction n as [|n IH]; intros Hf Hg; [reflexivity|].
  rewrite !dot_S, IH, Hf, Hg by auto with arith. reflexivity.
Qed.

(** Summing over rows first or over columns first. *)
Lemma dot_exchange (n m : nat) (f h : nat -> Scalar) (g : Matx Scalar) :
  dot n f (fun k => dot m (g k) h)
  = dot m (fun l => dot n f (fun k => g k l)) h.
Proof.
  induction n as [|n IH].
  - change (dot 0 f (fun k => dot m (g k) h)) with (@szero Float Scalar AR).
    rewrite (dot_ext m _ (fun _ => szero) h h) by reflexivity.
    rewrite (dot_comm sone ssub sopp sle slt sor).
    symmetry. apply (dot_const_zero_r sone ssub sopp sle slt sor).
  - rewrite dot_S, IH.
    rewrite (dot_ext m (fun l => dot (S n) f (fun k => g k l))
               (fun l => sadd (dot n f (fun k => g k l)) (smul (f n) (g n l)))
               h h);
      [| intros l; exact (dot_S n f (fun k => g k l)) | reflexivity].
    rewrite (dot_add_l sone ssub sopp sle slt sor).
    now rewrite (dot_scale_l sone ssub sopp sle slt sor).
Qed.

(** A row of the unit matrix picks one entry. *)
Lemma dot_unit_row (n i : nat) (h : nat -> Scalar) :
  dot n (fun l => if Nat.eqb i l then sone else szero) h
  = if Nat.ltb i n then h i else szero.
Proof.
  induction n as [|n IH]; [reflexivity|].
  rewrite dot_S, IH.
  destruct (Nat.eqb_spec i n) as [->|Hne].
  - rewrite Nat.ltb_irrefl.
    replace (Nat.ltb n (S n)) with true
      by (symmetry; apply Nat.ltb_lt; lia).
    ring.
  - destruct (Nat.ltb_spec i n) as [Hlt|Hge].
    + replace (Nat.ltb i (S n)) with true
        by (symmetry; apply Nat.ltb_lt; lia).
      ring.
    + replace (Nat.ltb i (S n)) with false
        by (symmetry; apply Nat.ltb_ge; lia).
      ring.
Qed.

(** X10.  In exact arithmetic, when [inv] returns a right inverse of the
    accumulated Hessian, the returned [delta] satisfies the normal
    equations [H * delta = b] in each of the [P] rows. *)
Theorem delta_satisfies_normal_equations (this : A) (w : W) :
  is_right_inverse sone (numParameters w)
    (acc_hessian (accumulate this w))
    (inv (numParameters w) (acc_hessian (accumulate this w))) ->
  forall i j, (i < numParameters w)%nat ->
    matmul (numParameters w) (acc_hessian (accumulate this w))
           (delta (alignImpl this w)) i j
    = acc_b (accumulate this w) i j.
Proof.
  intros Hinv i j Hi. unfold alignImpl. cbn [delta].
  set (P := numParameters w) in *.
  set (H := acc_hessian (accumulate this w)) in *.
  set (K := inv P H) in *.
  set (v := acc_b (accumulate this w)).
  change (dot P (H i) (fun k => dot P (K k) (fun m => v m j)) = v i j).
  rewrite dot_exchange.
  rewrite (dot_ext_lt P _ (fun l => if Nat.eqb i l then sone else szero)
             (fun m => v m j) (fun m => v m j)).
  - rewrite dot_unit_row.
    now replace (Nat.ltb i P) with true by (symmetry; now apply Nat.ltb_lt).
  - intros l Hl. exact (Hinv i l Hi Hl).
  - reflexivity.
Qed.

(** X11.  In exact arithmetic, when [inv] returns a left inverse of the
    accumulated Hessian, the returned [delta] is the solution: it agrees, in
    each of its [P] rows, with any [x] for which [H * x = b]. *)
Theorem delta_is_the_solution (this : A) (w : W) (x : Matx Scalar) :
  is_right_inverse sone (numParameters w)
    (inv (numParameters w) (acc_hessian (accumulate this w)))
    (acc_hessian (accumulate this w)) ->
  (forall k j, (k < numParameters w)%nat ->
     matmul (numParameters w) (acc_hessian (accumulate this w)) x k j
     = acc_b (accumulate this w) k j) ->
  forall i j, (i < numParameters w)%nat ->
    delta (alignImpl this w) i j = x i j.
Proof.
  intros Hinv Hx i j Hi. unfold alignImpl. cbn [delta].
  set (P := numParameters w) in *.
  set (H := acc_hessian (accumulate this w)) in *.
  set (K := inv P H) in *.
  set (v := acc_b (accumulate this w)) in *.
  change (dot P (K i) (fun k => v k j) = x i j).
  rewrite (dot_ext_lt P (K i) (K i) _
             (fun k => dot P (H k) (fun m => x m j)));
    [| reflexivity | intros k Hk; symmetry; exact (Hx k j Hk)].
  rewrite dot_exchange.
  rewrite (dot_ext_lt P _ (fun l => if Nat.eqb i l then sone else szero)
             (fun m => x m j) (fun m => x m j)).
  - rewrite dot_unit_row.
    now replace (Nat.ltb i P) with true by (symmetry; now apply Nat.ltb_lt).
  - intros l Hl. exact (Hinv i l Hi Hl).
  - reflexivity.
Qed.
End Solve.

(** ** The further properties on the concrete instance *)

Module Cases.
Import Demo.

Lemma zero_update_of_translation (w : Translation) :
  zero_update_is_identity w.
Proof.
  intros d Hd. destruct w as [tx ty]. cbn.
  rewrite !Hd. cbn. f_equal; lia.
Qed.

Lemma integer_squares_nonneg :
  forall e : Z, 0 <= scalar_of_float (fmul e e).
Proof. intros e. cbn. apply Z.square_nonneg. Qed.

Lemma strip_result_witness :
  (rows (templateImage strip_aligner) < 3
   \/ cols (templateImage strip_aligner) < 3) /\
  interior (templateImage strip_aligner) = [] /\
  numConstraints (alignImpl strip_aligner one_right) = 0 /\
  sumErrors (alignImpl strip_aligner one_right) = 0.
Proof.
  assert (H : rows (templateImage strip_aligner) < 3
              \/ cols (templateImage strip_aligner) < 3)
    by (left; reflexivity).
  pose proof (small_template_result strip_aligner one_right H)
    as (Hi & Hn & He & _).
  split; [exact H|]. split; [exact Hi|]. split; [exact Hn | exact He].
Defined.

Lemma masked_template_witness :
  ptr (templateImage self_aligner) 1 3
  <> ptr (templateImage masked_aligner) 1 3 /\
  alignImpl self_aligner one_right = alignImpl masked_aligner one_right.
Proof.
  split; [discriminate|].
  apply (template_read_at_contributing_pixels_only
           self_aligner masked_aligner one_right);
    [reflexivity | reflexivity | reflexivity |].
  intros p Hin.
  change (In p [(1, 1); (1, 2); (2, 1); (2, 2)]) in Hin.
  repeat (destruct Hin as [<-|Hin]; [reflexivity|]).
  contradiction.
Defined.

Lemma labelled_warp_witness :
  first_guess <> second_guess /\
  alignImpl (WP := labelled) self_aligner first_guess
  = alignImpl (WP := labelled) self_aligner second_guess.
Proof.
  split; [discriminate|].
  apply (warp_read_at_template_points_only (WP := labelled)
           self_aligner first_guess second_guess).
  split; [reflexivity|]. intros p _. split; reflexivity.
Defined.

Lemma aligned_shift_witness :
  contributing shifted_aligner one_left = [(1, 2); (1, 3); (2, 2); (2, 3)] /\
  sumErrors (alignImpl shifted_aligner one_left) = 0 /\
  (forall i j, delta (alignImpl shifted_aligner one_left) i j = 0) /\
  applyStep one_left (alignImpl shifted_aligner one_left) = one_left.
Proof.
  split; [reflexivity|].
  assert (Hres : forall p, In p (contributing shifted_aligner one_left) ->
                           residual shifted_aligner one_left p = 0).
  { intros p Hin.
    change (In p [(1, 2); (1, 3); (2, 2); (2, 3)]) in Hin.
    repeat (destruct Hin as [<-|Hin]; [reflexivity|]).
    contradiction. }
  pose proof (aligned_warp_is_fixed_point
                shifted_aligner one_left 0 Examples.integer_zero_laws Hres)
    as (He & Hd & Hw).
  split; [exact He|]. split; [exact Hd|].
  exact (Hw (zero_update_of_translation one_left)).
Defined.

Lemma integer_error_sum_witness :
  0 <= sumErrors (alignImpl self_aligner one_right) /\
  (sumErrors (alignImpl shifted_aligner one_left) = 0 ->
   forall p, In p (contributing shifted_aligner one_left) ->
             residual shifted_aligner one_left p
             * residual shifted_aligner one_left p = 0).
Proof.
  pose proof (error_sum_nonneg_and_definite
                1 Z.sub Z.opp Z.le Z.lt Zsor
                self_aligner one_right integer_squares_nonneg) as (Hpos & _).
  pose proof (error_sum_nonneg_and_definite
                1 Z.sub Z.opp Z.le Z.lt Zsor
                shifted_aligner one_left integer_squares_nonneg)
    as (_ & Hzero & _).
  split; [exact Hpos | exact Hzero].
Defined.

Lemma reversed_scan_witness :
  Permutation (contributing self_aligner one_right)
              (rev (contributing self_aligner one_right)) /\
  sumErrors (alignImpl self_aligner one_right)
  = error_sum self_aligner one_right
      [(2, 2); (2, 1); (1, 2); (1, 1)] /\
  (forall i j,
      acc_hessian (accumulate self_aligner one_right) i j
      = hessian_sum self_aligner one_right
          [(2, 2); (2, 1); (1, 2); (1, 1)] i j).
Proof.
  pose proof (Permutation_rev (contributing self_aligner one_right)) as Hp.
  pose proof (scan_order_is_immaterial
                1 Z.sub Z.opp Z.le Z.lt Zsor self_aligner one_right
                (rev (contributing self_aligner one_right)) Hp)
    as (Hh & _ & He).
  split; [exact Hp|]. split; [exact He | exact Hh].
Defined.

Lemma row_partition_witness :
  Permutation (contributing self_aligner one_right)
              ([(1, 1); (1, 2)] ++ [(2, 1); (2, 2)]) /\
  sumErrors (alignImpl self_aligner one_right)
  = error_sum self_aligner one_right [(1, 1); (1, 2)]
    + error_sum self_aligner one_right [(2, 1); (2, 2)] /\
  numConstraints (alignImpl self_aligner one_right) = 2 + 2.
Proof.
  assert (Hp : Permutation (contributing self_aligner one_right)
                           ([(1, 1); (1, 2)] ++ [(2, 1); (2, 2)]))
    by apply Permutation_refl.
  pose proof (partial_accumulators_add_up
                1 Z.sub Z.opp Z.le Z.lt Zsor self_aligner one_right
                [(1, 1); (1, 2)] [(2, 1); (2, 2)] Hp)
    as (_ & _ & He & Hn).
  split; [exact Hp|]. split; [exact He | exact Hn].
Defined.

Lemma unit_hessian_right_inverse :
  is_right_inverse 1 (numParameters no_shift)
    (acc_hessian (accumulate unit_aligner no_shift))
    (inv (numParameters no_shift)
         (acc_hessian (accumulate unit_aligner no_shift))).
Proof.
  intros i k Hi Hk. cbn in Hi, Hk.
  destruct i as [|[|i]]; [| |lia];
    (destruct k as [|[|k]]; [reflexivity | reflexivity | lia]).
Qed.

Lemma unit_hessian_left_inverse :
  is_right_inverse 1 (numParameters no_shift)
    (inv (numParameters no_shift)
         (acc_hessian (accumulate unit_aligner no_shift)))
    (acc_hessian (accumulate unit_aligner no_shift)).
Proof.
  intros i k Hi Hk. cbn in Hi, Hk.
  destruct i as [|[|i]]; [| |lia];
    (destruct k as [|[|k]]; [reflexivity | reflexivity | lia]).
Qed.

Lemma normal_equations_witness :
  delta (alignImpl unit_aligner no_shift) 0%nat 0%nat = 3 /\
  delta (alignImpl unit_aligner no_shift) 1%nat 0%nat = 4 /\
  forall i j, (i < 2)%nat ->
    matmul 2 (acc_hessian (accumulate unit_aligner no_shift))
           (delta (alignImpl unit_aligner no_shift)) i j
    = acc_b (accumulate unit_aligner no_shift) i j.
Proof.
  split; [reflexivity|]. split; [reflexivity|].
  exact (delta_satisfies_normal_equations
           1 Z.sub Z.opp Z.le Z.lt Zsor unit_aligner no_shift
           unit_hessian_right_inverse).
Defined.

Lemma unique_solution_witness :
  delta (alignImpl unit_aligner no_shift) 0%nat 0%nat = three_four 0%nat 0%nat
  /\ delta (alignImpl unit_aligner no_shift) 1%nat 0%nat
     = three_four 1%nat 0%nat.
Proof.
  assert (Hx : forall k j, (k < numParameters no_shift)%nat ->
             matmul (numParameters no_shift)
                    (acc_hessian (accumulate unit_aligner no_shift))
                    three_four k j
             = acc_b (accumulate unit_aligner no_shift) k j).
  { intros k j Hk. cbn in Hk.
    destruct k as [|[|k]]; [reflexivity | reflexivity | lia]. }
  pose proof (delta_is_the_solution
                1 Z.sub Z.opp Z.le Z.lt Zsor unit_aligner no_shift three_four
                unit_hessian_left_inverse Hx) as H.
  split; apply H; cbn; lia.
Defined.
End Cases.

(** ** The scan itself *)

Lemma filter_length_full {X : Type} (c : X -> bool) (l : list X) :
  length (filter c l) = length l <-> forall x, In x l -> c x = true.
Proof.
  induction l as [|x l IH]; simpl.
  - split; [intros _ y [] | reflexivity].
  - pose proof (filter_length_le c l) as Hle.
    destruct (c x) eqn:Hc; simpl.
    + split.
      * intros E y [<-|Hy]; [exact Hc|].
        apply IH; [lia | exact Hy].
      * intros H. f_equal. apply IH. intros y Hy. apply H. now right.
    + split; [lia|].
      intros H. specialize (H x (or_introl eq_refl)). congruence.
Qed.

Section Visits.
Context {Float Scalar W A : Type}.
Context {AR : Arith Float Scalar} {WP : Warp Scalar W}.
Context {KR : Kernels Float Scalar} {AB : AlignBase Float A}.

(** X12.  The two loops run the body once for each pixel of rows [1..N-2]
    and columns [1..M-2] of the template and for no other pixel,
    [max(N-2,0) * max(M-2,0)] times in all, whatever the accumulators hold
    on entry. *)
Theorem scan_visits_each_interior_pixel_once
    (this : A) (w : W) (acc : Accum Scalar) :
  let tpl := templateImage this in
  scan this w acc
  = fold_left (fun a p => pixel this w a (fst p) (snd p)) (interior tpl) acc /\
  NoDup (interior tpl) /\
  (forall y x, In (y, x) (interior tpl)
               <-> 1 <= y <= rows tpl - 2 /\ 1 <= x <= cols tpl - 2) /\
  Z.of_nat (length (interior tpl))
  = Z.max 0 (rows tpl - 2) * Z.max 0 (cols tpl - 2).
Proof.
  cbv zeta. split; [apply scan_interior|].
  split; [apply NoDup_interior|].
  split; [intros y x; apply In_interior | apply length_interior].
Qed.

(** X13.  The count reaches the number of visited pixels exactly when every
    visited pixel passes the bounds test. *)
Theorem full_count_iff_all_accepted (this : A) (w : W) :
  numConstraints (alignImpl this w)
  = Z.max 0 (rows (templateImage this) - 2)
    * Z.max 0 (cols (templateImage this) - 2)
  <-> forall p, In p (interior (templateImage this)) ->
                contributes this w p = true.
Proof.
  unfold alignImpl. cbn [numConstraints].
  rewrite accumulate_sumConstraints, <- length_interior.
  unfold contributing. rewrite <- filter_length_full. split.
  - intros E. now apply Nat2Z.inj.
  - intros E. now rewrite E.
Qed.
End Visits.

(** ** Self-alignment and the Hessian under binary64 rounding *)

Module Machine.
Import Floats.
Import Ieee.

(** The product of two binary64 numbers commutes. *)
Lemma SFmul_comm (prec emax : Z) (x y : spec_float) :
  SFmul prec emax x y = SFmul prec emax y x.
Proof.
  destruct x as [sx|sx| |sx mx ex], y as [sy|sy| |sy my ey]; simpl;
    try reflexivity; try (now rewrite xorb_comm).
  now rewrite xorb_comm, Pos.mul_comm, Z.add_comm.
Qed.

Lemma binary64_mul_comm (a c : float) : smul a c = smul c a.
Proof. apply Prim2SF_inj. cbn. rewrite !mul_spec. apply SFmul_comm. Qed.











(** C9, counterexample.  One contributing pixel whose steepest-descent row
    is [(0.3, 0.7)] as rounded to binary64: the quadratic form of the
    accumulated Hessian at [(7, -3)] is negative. *)
Lemma rounded_hessian_not_semidefinite :
  contributing (self slope) still = [(1, 1)] /\
  sdi (self slope) still (1, 1) 0%nat 0%nat = 0x1.3333333333333p-2%float /\
  sdi (self slope) still (1, 1) 0%nat 1%nat = 0x1.6666666666666p-1%float /\
  PrimFloat.ltb
    (quad (numParameters still)
          (acc_hessian (accumulate (self slope) still)) seven_minus_three)
    PrimFloat.zero
  = true.
Proof. repeat split; vm_compute; reflexivity. Qed.

Lemma rounded_hessian_symmetric_witness :
  acc_hessian (accumulate (self slope) still) 0%nat 1%nat
  = acc_hessian (accumulate (self slope) still) 1%nat 0%nat /\
  acc_hessian (accumulate (self slope) still)
  = hessian_sum (self slope) still [(1, 1)].
Proof.
  pose proof (hessian_symmetric_sum_of_outer_products
                (self slope) still binary64_mul_comm) as H.
  cbv zeta in H. destruct H as (Hsum & Hsym & _).
  split; [apply Hsym | exact Hsum].
Defined.
End Machine.
